(** * The cube-solver motor sequencer ([solver.py]), embedded and verified

    The script drives six ODrive motor controllers, one per face of the cube.
    It connects to each controller, puts its axis into closed-loop position
    control, and then plays fixed scramble / unscramble move lists, one
    quarter turn at a time.

    The embedding follows the script procedure by procedure:
    - Python [float] is IEEE binary64, which is what Rocq's primitive [float]
      is; every addition below rounds exactly as the interpreter's does;
    - [str] is [string], a [dict] is an association list in insertion order
      (the order [.items()] iterates in);
    - a device handle is the serial number of the controller it talks to, and
      the attributes the script writes live in a store indexed by serial, so
      that two handles to one controller would alias;
    - what the controllers report back ([pos_estimate], [current_state]) and
      whether discovery succeeds is not decided by the script: it is an
      environment [Env], a parameter of every procedure;
    - every effect ([print], [time.sleep], attribute reads and writes,
      [input], [time.time]) is logged, in order, in the state's [trace];
    - exceptions ([IndexError] from [move[0]], [EOFError] from [input]) are the
      [Raise] results of a small state-and-error monad. *)

From Stdlib Require Import String Ascii List ZArith Floats Bool Lia QArith.
Import ListNotations.

Local Open Scope string_scope.
Local Open Scope list_scope.

(** ** Python built-ins *)

Module Py.

(** [s.endswith(suffix)] *)
Definition endswith (s suffix : string) : bool :=
  let n := String.length s in
  let m := String.length suffix in
  (m <=? n)%nat && String.eqb (substring (n - m) m s) suffix.

(** [s[0]]: the one-character string at index 0; [None] stands for the
    [IndexError] of the empty string. *)
Definition index0 (s : string) : option string :=
  match s with
  | EmptyString => None
  | String c _ => Some (String c EmptyString)
  end.

Definition upper_ascii (c : ascii) : ascii :=
  let n := nat_of_ascii c in
  if ((97 <=? n) && (n <=? 122))%nat then ascii_of_nat (n - 32) else c.

(** [s.upper()], for ASCII text (the console lines the script compares with
    ['S'], ['U'] and ['Q']). On a line with a character outside ASCII
    [str.upper] can do more: it takes the long s, U+017F, to 'S'. What is
    proved of lines that are not commands is proved of ASCII lines. *)
Fixpoint upper (s : string) : string :=
  match s with
  | EmptyString => EmptyString
  | String c r => String (upper_ascii c) (upper r)
  end.

(** [float(n)] for a Python [int]: the nearest binary64, ties to even (an
    [int] too large for binary64, on which Python raises [OverflowError],
    comes out infinite here; the script converts 1 and -1 only). *)
Definition float_of_int (n : Z) : float :=
  SF2Prim (binary_normalize prec emax n 0 false).

(** [n * x] with [n] an [int] and [x] a [float]: [n] is converted first. *)
Definition int_mul_float (n : Z) (x : float) : float :=
  PrimFloat.mul (float_of_int n) x.

End Py.

(** ** Dictionaries with string keys, in insertion order *)

Section Dict.
Context {V : Type}.

Definition dict := list (string * V).

(** [d.get(k)] *)
Fixpoint dict_get (k : string) (d : dict) : option V :=
  match d with
  | [] => None
  | (k', v) :: r => if String.eqb k' k then Some v else dict_get k r
  end.

(** [d[k] = v]: an existing key keeps its place, a new one goes last. *)
Fixpoint dict_set (k : string) (v : V) (d : dict) : dict :=
  match d with
  | [] => [(k, v)]
  | (k', v') :: r =>
      if String.eqb k' k then (k, v) :: r else (k', v') :: dict_set k v r
  end.

Definition keys (d : dict) : list string := map fst d.
Definition values (d : dict) : list V := map snd d.
End Dict.
Arguments dict V : clear implicits.

(** ** The controller interface the script uses *)

(** Members of [odrive.enums] (the driver library, not part of the script);
    the script names [CLOSED_LOOP_CONTROL], [POSITION_CONTROL] and
    [TRAP_TRAJ], the others stand for what a controller may report
    instead. *)
Inductive AxisState :=
| UNDEFINED | IDLE | STARTUP_SEQUENCE | FULL_CALIBRATION_SEQUENCE
| MOTOR_CALIBRATION | ENCODER_INDEX_SEARCH | ENCODER_OFFSET_CALIBRATION
| CLOSED_LOOP_CONTROL | LOCKIN_SPIN | ENCODER_DIR_FIND | HOMING.

Inductive ControlMode :=
| VOLTAGE_CONTROL | TORQUE_CONTROL | VELOCITY_CONTROL | POSITION_CONTROL.

Inductive InputMode :=
| INACTIVE | PASSTHROUGH | VEL_RAMP | POS_FILTER | MIX_CHANNELS | TRAP_TRAJ
| TORQUE_RAMP | MIRROR | TUNING.

Definition AxisState_eqb (a b : AxisState) : bool :=
  match a, b with
  | UNDEFINED, UNDEFINED | IDLE, IDLE | STARTUP_SEQUENCE, STARTUP_SEQUENCE
  | FULL_CALIBRATION_SEQUENCE, FULL_CALIBRATION_SEQUENCE
  | MOTOR_CALIBRATION, MOTOR_CALIBRATION
  | ENCODER_INDEX_SEARCH, ENCODER_INDEX_SEARCH
  | ENCODER_OFFSET_CALIBRATION, ENCODER_OFFSET_CALIBRATION
  | CLOSED_LOOP_CONTROL, CLOSED_LOOP_CONTROL | LOCKIN_SPIN, LOCKIN_SPIN
  | ENCODER_DIR_FIND, ENCODER_DIR_FIND | HOMING, HOMING => true
  | _, _ => false
  end.

(** The attributes of [odrv.axis0] that the script assigns. *)
Record Axis := mkAxis {
  control_mode : ControlMode;     (* controller.config.control_mode *)
  input_mode : InputMode;         (* controller.config.input_mode *)
  vel_limit : float;              (* trap_traj.config.vel_limit *)
  accel_limit : float;            (* trap_traj.config.accel_limit *)
  decel_limit : float;            (* trap_traj.config.decel_limit *)
  input_pos : float;              (* controller.input_pos *)
  requested_state : AxisState     (* requested_state *)
}.

Definition with_control_mode (v : ControlMode) (a : Axis) : Axis :=
  mkAxis v (input_mode a) (vel_limit a) (accel_limit a) (decel_limit a)
         (input_pos a) (requested_state a).
Definition with_input_mode (v : InputMode) (a : Axis) : Axis :=
  mkAxis (control_mode a) v (vel_limit a) (accel_limit a) (decel_limit a)
         (input_pos a) (requested_state a).
Definition with_vel_limit (v : float) (a : Axis) : Axis :=
  mkAxis (control_mode a) (input_mode a) v (accel_limit a) (decel_limit a)
         (input_pos a) (requested_state a).
Definition with_accel_limit (v : float) (a : Axis) : Axis :=
  mkAxis (control_mode a) (input_mode a) (vel_limit a) v (decel_limit a)
         (input_pos a) (requested_state a).
Definition with_decel_limit (v : float) (a : Axis) : Axis :=
  mkAxis (control_mode a) (input_mode a) (vel_limit a) (accel_limit a) v
         (input_pos a) (requested_state a).
Definition with_input_pos (v : float) (a : Axis) : Axis :=
  mkAxis (control_mode a) (input_mode a) (vel_limit a) (accel_limit a)
         (decel_limit a) v (requested_state a).
Definition with_requested_state (v : AxisState) (a : Axis) : Axis :=
  mkAxis (control_mode a) (input_mode a) (vel_limit a) (accel_limit a)
         (decel_limit a) (input_pos a) v.

(** ** Effects *)

Inductive Attr :=
| A_control_mode | A_input_mode | A_vel_limit | A_accel_limit | A_decel_limit
| A_input_pos | A_requested_state | A_pos_estimate | A_current_state.

Inductive Value :=
| VFloat (x : float)
| VControlMode (m : ControlMode)
| VInputMode (m : InputMode)
| VAxisState (s : AxisState).

(** What the script prints; a message keeps the values it interpolates (the
    exception text and the elapsed seconds, which no decision reads, are left
    out). *)
Inductive Msg :=
| MConnecting
| MConnected (face serial : string)
| MFailed (face serial : string)
| MAllConnected
| MSettingUp
| MWarning (face : string) (state : AxisState)
| MReady (face : string) (pos : float)
| MAllReady
| MNotConnected (face : string)
| MMove (move : string)
| MDone
| MFailedToConnect
| MScrambling
| MScrambleComplete
| MUnscrambling
| MUnscrambleComplete
| MExiting
| MInvalidChoice.

Inductive Event :=
| EFind (serial : string)                       (* odrive.find_sync *)
| ERead (odrv : string) (a : Attr)              (* attribute read *)
| EWrite (odrv : string) (a : Attr) (v : Value) (* attribute assignment *)
| ESleep (seconds : float)                      (* time.sleep *)
| EPrint (m : Msg)                              (* print *)
| EInput                                        (* input(prompt) *)
| EClock.                                       (* time.time() *)

(** What the script does not decide: which controllers answer discovery,
    and what an axis reports when read, given everything that happened
    before the read. *)
Record Env := mkEnv {
  discoverable : string -> bool;
  pos_estimate : string -> list Event -> float;
  current_state : string -> list Event -> AxisState
}.

(** The face-to-serial table and the two move lists of the script. *)
Definition SERIALS : dict string :=
  [ ("D", "395634623331"); ("U", "395134633331"); ("L", "396034693331");
    ("B", "3971346B3331"); ("F", "395134623331"); ("R", "395934593331") ].

Definition SCRAMBLE_SEQUENCE : list string :=
  [ "R"; "U"; "F'"; "L"; "D'"; "B"; "R'"; "F"; "L'"; "D"; "U'"; "B'"; "R";
    "L"; "F"; "D'"; "U"; "B"; "L'"; "R'" ].

Definition UNSCRAMBLE_SEQUENCE : list string :=
  [ "R"; "L"; "B'"; "U'"; "D"; "F'"; "L'"; "R'"; "B"; "U"; "D'"; "L"; "F'";
    "R"; "B'"; "D"; "L'"; "F"; "U'"; "R'" ].

(** The module's global bindings (mutable in Python, hence part of the
    state), the controllers' written attributes, and the log of effects. *)
Record State := mkState {
  g_SERIALS : dict string;
  g_SCRAMBLE_SEQUENCE : list string;
  g_UNSCRAMBLE_SEQUENCE : list string;
  axis0 : string -> Axis;
  trace : list Event
}.

(** The state the interpreter is in when [main] is entered. *)
Definition boot (devices : string -> Axis) : State :=
  mkState SERIALS SCRAMBLE_SEQUENCE UNSCRAMBLE_SEQUENCE devices [].

(** The exceptions that can arise: [move[0]] on an empty token, [input] at
    end of input, and whatever [find_sync] raises for a controller that does
    not answer. *)
Inductive Exc := IndexError | EOFError | DeviceNotFound.

Inductive Result (A : Type) :=
| Ok (a : A)
| Raise (e : Exc).
Arguments Ok {A} a.
Arguments Raise {A} e.

Definition M (A : Type) : Type := State -> Result A * State.

Definition ret {A} (a : A) : M A := fun st => (Ok a, st).

Definition bind {A B} (c : M A) (k : A -> M B) : M B :=
  fun st =>
    match c st with
    | (Ok a, st') => k a st'
    | (Raise e, st') => (Raise e, st')
    end.

Definition raise {A} (e : Exc) : M A := fun st => (Raise e, st).

(** [try: c  except Exception: handler] *)
Definition try_except {A} (c : M A) (handler : Exc -> M A) : M A :=
  fun st =>
    match c st with
    | (Ok a, st') => (Ok a, st')
    | (Raise e, st') => handler e st'
    end.

Declare Scope py_scope.
Delimit Scope py_scope with py.
Notation "x <- c ;; k" := (bind c (fun x => k))
  (at level 100, c at next level, right associativity) : py_scope.
Notation "c ;;; k" := (bind c (fun _ => k))
  (at level 100, right associativity) : py_scope.
Local Open Scope py_scope.

(** The two ways a state changes: an effect is logged, an axis is written. *)
Definition log (e : Event) (st : State) : State :=
  mkState (g_SERIALS st) (g_SCRAMBLE_SEQUENCE st) (g_UNSCRAMBLE_SEQUENCE st)
          (axis0 st) (trace st ++ [e]).

Definition store (odrv : string) (upd : Axis -> Axis) (st : State) : State :=
  mkState (g_SERIALS st) (g_SCRAMBLE_SEQUENCE st) (g_UNSCRAMBLE_SEQUENCE st)
          (fun s => if String.eqb s odrv then upd (axis0 st s) else axis0 st s)
          (trace st).

Definition emit (e : Event) : M unit := fun st => (Ok tt, log e st).

Definition print (m : Msg) : M unit := emit (EPrint m).
Definition sleep (seconds : float) : M unit := emit (ESleep seconds).

Definition get_state : M State := fun st => (Ok st, st).

(** Assignment to an attribute of the axis behind handle [odrv]. *)
Definition assign (odrv : string) (a : Attr) (v : Value) (upd : Axis -> Axis)
  : M unit :=
  fun st => (Ok tt, log (EWrite odrv a v) (store odrv upd st)).

(** Read of a written attribute: the controller returns what it holds. *)
Definition read {A} (odrv : string) (a : Attr) (field : Axis -> A) : M A :=
  fun st => (Ok (field (axis0 st odrv)), log (ERead odrv a) st).

(** ** The script

    The procedures that read what a controller reports, or look for one,
    take the environment [env]; [rotate], [execute_sequence] and the command
    loop do neither, and after the section they take no environment. *)

Section Program.
Variable env : Env.

(** Read of a reported attribute: the environment answers. *)
Definition report {A} (odrv : string) (a : Attr)
           (oracle : Env -> string -> list Event -> A) : M A :=
  fun st => (Ok (oracle env odrv (trace st)), log (ERead odrv a) st).

(** [odrive.find_sync(serial_number=serial, timeout=10)]: a handle, or an
    exception when the controller does not answer. *)
Definition find_sync (serial : string) : M string :=
  emit (EFind serial) ;;;
  if discoverable env serial then ret serial else raise DeviceNotFound.

(** The body of the loop of [connect_odrives]: [Some] the grown mapping to
    go on with, [None] for the [return None] of the handler. *)
Definition connect_one (face serial : string) (odrives : dict string)
  : M (option (dict string)) :=
  try_except
    (odrv <- find_sync serial ;;
     let odrives := dict_set face odrv odrives in
     print (MConnected face serial) ;;;
     ret (Some odrives))
    (fun _ => print (MFailed face serial) ;;; ret None).

Fixpoint connect_loop (items : list (string * string))
         (odrives : dict string) : M (option (dict string)) :=
  match items with
  | [] => ret (Some odrives)
  | (face, serial) :: rest =>
      r <- connect_one face serial odrives ;;
      match r with
      | Some odrives => connect_loop rest odrives
      | None => ret None
      end
  end.

Definition connect_odrives : M (option (dict string)) :=
  print MConnecting ;;;
  st <- get_state ;;
  r <- connect_loop (g_SERIALS st) [] ;;
  match r with
  | Some odrives => print MAllConnected ;;; ret (Some odrives)
  | None => ret None
  end.

(** The body of the loop of [setup_motors]. *)
Definition setup_one (face odrv : string) : M unit :=
  assign odrv A_control_mode (VControlMode POSITION_CONTROL)
         (with_control_mode POSITION_CONTROL) ;;;
  assign odrv A_input_mode (VInputMode TRAP_TRAJ)
         (with_input_mode TRAP_TRAJ) ;;;
  assign odrv A_vel_limit (VFloat 80) (with_vel_limit 80) ;;;
  assign odrv A_accel_limit (VFloat 150) (with_accel_limit 150) ;;;
  assign odrv A_decel_limit (VFloat 150) (with_decel_limit 150) ;;;
  p <- report odrv A_pos_estimate pos_estimate ;;
  assign odrv A_input_pos (VFloat p) (with_input_pos p) ;;;
  assign odrv A_requested_state (VAxisState CLOSED_LOOP_CONTROL)
         (with_requested_state CLOSED_LOOP_CONTROL) ;;;
  sleep 1 ;;;
  state <- report odrv A_current_state current_state ;;
  if negb (AxisState_eqb state CLOSED_LOOP_CONTROL)
  then print (MWarning face state)
  else p' <- report odrv A_pos_estimate pos_estimate ;;
       print (MReady face p').

Fixpoint setup_loop (items : list (string * string)) : M unit :=
  match items with
  | [] => ret tt
  | (face, odrv) :: rest => setup_one face odrv ;;; setup_loop rest
  end.

Definition setup_motors (odrives : dict string) : M unit :=
  print MSettingUp ;;;
  setup_loop odrives ;;;
  print MAllReady.

(** The sleep of [rotate]: the binary64 nearest to 0.08. *)
Definition settle_seconds : float := 0x1.47ae147ae147bp-4%float.

Definition rotate (odrv : string) (quarter_turns : Z) : M unit :=
  current <- read odrv A_input_pos input_pos ;;
  let target :=
    PrimFloat.add current (Py.int_mul_float quarter_turns 0.25) in
  assign odrv A_input_pos (VFloat target) (with_input_pos target) ;;;
  sleep settle_seconds.

(** [face = move[0]], with the direction of the branch it is read in. *)
Definition parse_move (move : string) : M (string * Z) :=
  if Py.endswith move "'"
  then match Py.index0 move with
       | Some face => ret (face, (-1)%Z)
       | None => raise IndexError
       end
  else match Py.index0 move with
       | Some face => ret (face, 1%Z)
       | None => raise IndexError
       end.

(** The body of the loop of [execute_sequence]; [face not in odrives] and
    [odrives[face]] are the two outcomes of one lookup. *)
Definition execute_move (odrives : dict string) (move : string) : M unit :=
  fd <- parse_move move ;;
  let '(face, direction) := fd in
  match dict_get face odrives with
  | None => print (MNotConnected face)
  | Some odrv =>
      print (MMove move) ;;;
      rotate odrv direction ;;;
      print MDone
  end.

Fixpoint execute_sequence (odrives : dict string) (sequence : list string)
  : M unit :=
  match sequence with
  | [] => ret tt
  | move :: rest =>
      execute_move odrives move ;;; execute_sequence odrives rest
  end.

(** The [while True] loop of [main], over the lines the console will
    supply; [input] at end of input raises [EOFError]. *)
Fixpoint command_loop (odrives : dict string) (stdin : list string)
  : M unit :=
  match stdin with
  | [] => emit EInput ;;; raise EOFError
  | line :: stdin =>
      emit EInput ;;;
      let choice := Py.upper line in
      if String.eqb choice "S" then
        print MScrambling ;;;
        emit EClock ;;;
        st <- get_state ;;
        execute_sequence odrives (g_SCRAMBLE_SEQUENCE st) ;;;
        emit EClock ;;;
        print MScrambleComplete ;;;
        command_loop odrives stdin
      else if String.eqb choice "U" then
        print MUnscrambling ;;;
        emit EClock ;;;
        st <- get_state ;;
        execute_sequence odrives (g_UNSCRAMBLE_SEQUENCE st) ;;;
        emit EClock ;;;
        print MUnscrambleComplete ;;;
        command_loop odrives stdin
      else if String.eqb choice "Q" then
        print MExiting
      else
        print MInvalidChoice ;;;
        command_loop odrives stdin
  end.

(** [not odrives]: [None] and the empty mapping are both falsy. *)
Definition main (stdin : list string) : M unit :=
  r <- connect_odrives ;;
  match r with
  | None | Some [] => print MFailedToConnect
  | Some odrives =>
      setup_motors odrives ;;;
      command_loop odrives stdin
  end.

End Program.

(** * Vocabulary of the properties *)

(** ** One move *)

(** The target the text gives for a move: a quarter turn up without a
    trailing quote, a quarter turn down with one. *)
Definition quarter_target (move : string) (current : float) : float :=
  if Py.endswith move "'"
  then PrimFloat.sub current 0.25
  else PrimFloat.add current 0.25.

(** The state a move on a connected face leaves behind. *)
Definition moved (odrv : string) (move : string) (st : State) : State :=
  let target := quarter_target move (input_pos (axis0 st odrv)) in
  log (EPrint MDone)
    (log (ESleep settle_seconds)
       (log (EWrite odrv A_input_pos (VFloat target))
          (store odrv (with_input_pos target)
             (log (ERead odrv A_input_pos)
                (log (EPrint (MMove move)) st))))).

(** ** Handles *)

Fixpoint memb (x : string) (l : list string) : bool :=
  match l with
  | [] => false
  | y :: r => String.eqb y x || memb x r
  end.

(** No two faces of the mapping share a handle. *)
Fixpoint distinct (l : list string) : bool :=
  match l with
  | [] => true
  | x :: r => negb (memb x r) && distinct r
  end.

(** ** Sample controllers, for running the script *)

Module Sample.

(** An axis as it is before the script touches it, resting at [p]. *)
Definition axis (p : float) : Axis :=
  mkAxis VOLTAGE_CONTROL INACTIVE 2 0.5 0.5 p IDLE.

(** Every controller answers, reports position [p] and enters closed loop. *)
Definition healthy (p : float) : Env :=
  mkEnv (fun _ => true) (fun _ _ => p) (fun _ _ => CLOSED_LOOP_CONTROL).


(** The controller of face B does not answer discovery. *)
Definition back_missing : Env :=
  mkEnv (fun s => negb (String.eqb s "3971346B3331"))
        (fun _ _ => 0%float) (fun _ _ => CLOSED_LOOP_CONTROL).

(** The binary64 nearest to one tenth of a turn. *)
Definition tenth : float := 0x1.999999999999ap-4%float.

End Sample.

(** ** Whole sequences *)

Definition direction (move : string) : Z :=
  if Py.endswith move "'" then (-1)%Z else 1%Z.

(** What a sequence comes to: for each token in order, the handle of its
    face with the direction of the turn; a face that is not connected gives
    nothing, and an empty token ends the run (its [move[0]] raises). *)
Fixpoint commands (odrives : dict string) (sequence : list string)
  : list (string * Z) :=
  match sequence with
  | [] => []
  | move :: rest =>
      match Py.index0 move with
      | None => []
      | Some face =>
          match dict_get face odrives with
          | Some odrv => (odrv, direction move) :: commands odrives rest
          | None => commands odrives rest
          end
      end
  end.

(** The handles written to, in the order of the log. *)
Fixpoint written (t : list Event) : list string :=
  match t with
  | [] => []
  | EWrite odrv _ _ :: r => odrv :: written r
  | _ :: r => written r
  end.


(** ** Where a sequence leaves the commanded positions *)

(** One command: the binary64 sum the script computes in [rotate]. *)
Definition step (p : float) (d : Z) : float :=
  PrimFloat.add p (Py.int_mul_float d 0.25).

(** The directions of the commands that go to handle [s], in order. *)
Definition turns_of (s : string) (cmds : list (string * Z)) : list Z :=
  map snd (filter (fun c => String.eqb s (fst c)) cmds).

Definition nonempty (s : string) : bool :=
  match s with EmptyString => false | _ => true end.

(** ** Scramble, then unscramble *)


(** The S command followed by the U command, as far as the axes go. *)
Definition scramble_then_unscramble (odrives : dict string) : M unit :=
  execute_sequence odrives SCRAMBLE_SEQUENCE ;;;
  execute_sequence odrives UNSCRAMBLE_SEQUENCE.

(** A quarter turn up from [p] and back, and down from [p] and back, both
    land on [p] again: neither binary64 addition loses a bit of [p]. *)
Definition round_trips (p : float) : Prop :=
  PrimFloat.sub (PrimFloat.add p 0.25) 0.25 = p /\
  PrimFloat.add (PrimFloat.sub p 0.25) 0.25 = p.

(** [k] quarter turns, as the script computes them. *)
Definition quarter (k : Z) : float := Py.int_mul_float k 0.25.

(** [round_trips], decided. *)
Definition round_tripsb (p : float) : bool :=
  Leibniz.eqb (PrimFloat.sub (PrimFloat.add p 0.25) 0.25) p &&
  Leibniz.eqb (PrimFloat.add (PrimFloat.sub p 0.25) 0.25) p.

(** The whole numbers from [-n] to [n]. *)
Definition span (n : nat) : list Z :=
  map (fun i => (Z.of_nat i - Z.of_nat n)%Z) (seq 0 (2 * n + 1)).

(** ** Quarter-turn multiples *)

(** The number a binary64 stands for; infinities and NaN stand for none. *)
Definition exact (x : float) : option Q :=
  match Prim2SF x with
  | S754_zero _ => Some 0%Q
  | S754_finite s m e =>
      Some (inject_Z (if s then Z.neg m else Z.pos m) * Qpower 2 e)%Q
  | _ => None
  end.

(** [p] is [p0] plus a whole number [k] of quarter turns. *)
Definition quarter_turns_apart (p0 p : float) (k : Z) : Prop :=
  exists q0 q,
    exact p0 = Some q0 /\ exact p = Some q /\
    (q == q0 + inject_Z k * (1 # 4))%Q.

Definition quarter_multiple (p0 p : float) : Prop :=
  exists k, quarter_turns_apart p0 p k.

(** The additions of the commands [ds], made one after the other from [p],
    are all exact: each sum is the number it should be. *)
Fixpoint exact_steps (p : float) (ds : list Z) : Prop :=
  match ds with
  | [] => exact p <> None
  | d :: r => quarter_turns_apart p (step p d) d /\ exact_steps (step p d) r
  end.

(** [quarter k] stands for the number [k / 4]. *)
Definition exact_quarterb (k : Z) : bool :=
  match exact (quarter k) with
  | Some q => Qeq_bool q (inject_Z k * (1 # 4))
  | None => false
  end.

(** One command up or down from [quarter k] gives the next or the previous
    quarter. *)
Definition steps_quarterb (k : Z) : bool :=
  Leibniz.eqb (step (quarter k) 1) (quarter (k + 1)) &&
  Leibniz.eqb (step (quarter k) (-1)) (quarter (k - 1)).

(** ** Setup *)

(** The writes that configure an axis, then the position sync, the request
    for closed loop and the wait: what [setup_motors] logs for one handle
    before it verifies, [p] being the position estimate read. *)
Definition configuring (odrv : string) : list Event :=
  [ EWrite odrv A_control_mode (VControlMode POSITION_CONTROL);
    EWrite odrv A_input_mode (VInputMode TRAP_TRAJ);
    EWrite odrv A_vel_limit (VFloat 80);
    EWrite odrv A_accel_limit (VFloat 150);
    EWrite odrv A_decel_limit (VFloat 150) ].

Definition entering (odrv : string) (p : float) : list Event :=
  [ ERead odrv A_pos_estimate;
    EWrite odrv A_input_pos (VFloat p);
    EWrite odrv A_requested_state (VAxisState CLOSED_LOOP_CONTROL);
    ESleep 1 ].

(** What the verification logs, [state] being the state read and [p'] the
    position estimate read for the "ready" message. *)
Definition verifying (face odrv : string) (state : AxisState) (p' : float)
  : list Event :=
  ERead odrv A_current_state ::
  (if AxisState_eqb state CLOSED_LOOP_CONTROL
   then [ERead odrv A_pos_estimate; EPrint (MReady face p')]
   else [EPrint (MWarning face state)]).

(** The axis [setup_motors] leaves behind a handle. *)
Definition set_up (p : float) : Axis :=
  mkAxis POSITION_CONTROL TRAP_TRAJ 80 150 150 p CLOSED_LOOP_CONTROL.

Definition globals (st : State) :=
  (g_SERIALS st, g_SCRAMBLE_SEQUENCE st, g_UNSCRAMBLE_SEQUENCE st).

(** Everything one iteration of [setup_motors] logs, after [history]. *)
Definition setup_block (env : Env) (face odrv : string)
           (history : list Event) : list Event :=
  let before := history ++ configuring odrv in
  let p := pos_estimate env odrv before in
  let entered := before ++ entering odrv p in
  let state := current_state env odrv entered in
  let p' := pos_estimate env odrv (entered ++ [ERead odrv A_current_state]) in
  configuring odrv ++ entering odrv p ++ verifying face odrv state p'.

(** The position estimate an iteration reads and commands, after [history]. *)
Definition synced_position (env : Env) (odrv : string)
           (history : list Event) : float :=
  pos_estimate env odrv (history ++ configuring odrv).

(** The state an iteration reads back after its wait, after [history]. *)
Definition verified_state (env : Env) (odrv : string)
           (history : list Event) : AxisState :=
  current_state env odrv
    (history ++ configuring odrv ++
     entering odrv (synced_position env odrv history)).

(** An axis that has been configured and asked for closed loop. *)
Definition configured (a : Axis) : Prop :=
  control_mode a = POSITION_CONTROL /\
  input_mode a = TRAP_TRAJ /\
  requested_state a = CLOSED_LOOP_CONTROL.

(** Every request for a state, in the log, comes directly after a write of
    the same handle's [input_pos], itself directly after a read of its
    [pos_estimate]. *)
Fixpoint synced (t : list Event) : bool :=
  match t with
  | [] => true
  | ERead h A_pos_estimate :: r =>
      match r with
      | EWrite h1 A_input_pos _ :: EWrite h2 A_requested_state _ :: r' =>
          String.eqb h h1 && String.eqb h h2 && synced r'
      | _ => synced r
      end
  | EWrite _ A_requested_state _ :: _ => false
  | _ :: r => synced r
  end.

(** The log holds an iteration for [face] and [odrv]. *)
Definition set_up_in (env : Env) (face odrv : string) (t : list Event)
  : Prop :=
  exists pre post, t = pre ++ setup_block env face odrv pre ++ post.

(** ** Connecting *)

(** Discovery and printing: the effects that reach no axis and read no
    console line. *)
Definition touches_no_axis (e : Event) : bool :=
  match e with
  | EFind _ | EPrint _ => true
  | _ => false
  end.

(** The handles an effect addresses are among [hs], and the move it
    announces, if any, is among [ms]. *)
Definition allowed (hs ms : list string) (e : Event) : bool :=
  match e with
  | EFind s | ERead s _ | EWrite s _ _ => memb s hs
  | EPrint (MMove m) => memb m ms
  | _ => true
  end.

(** ** The tables stay as they are *)

(** From [st] to [st']: the global bindings are untouched, and every effect
    logged on the way satisfies [P]. *)
Definition extends (P : Event -> bool) (st st' : State) : Prop :=
  globals st' = globals st /\
  exists new, trace st' = trace st ++ new /\ forallb P new = true.

(** The tokens of the two move lists. *)
Definition MOVES : list string := SCRAMBLE_SEQUENCE ++ UNSCRAMBLE_SEQUENCE.

(** Every handle an effect addresses is a serial of [SERIALS], and every
    move it announces is a token of one of the two move lists. *)
Definition within_tables : Event -> bool := allowed (values SERIALS) MOVES.

(** ** The console, discovery, and what a token is read as *)

(** The line makes the command loop stop. *)
Definition quits (line : string) : bool := String.eqb (Py.upper line) "Q".

(** The line makes the command loop play one of the two move lists. *)
Definition plays (line : string) : bool :=
  String.eqb (Py.upper line) "S" || String.eqb (Py.upper line) "U".

(** The lines up to and including the first that quits. *)
Fixpoint until_quit (stdin : list string) : list string :=
  match stdin with
  | [] => []
  | line :: rest => line :: if quits line then [] else until_quit rest
  end.

(** The serials of a table up to and including the first whose controller
    does not answer. *)
Fixpoint attempted (env : Env) (items : list (string * string))
  : list string :=
  match items with
  | [] => []
  | (_, serial) :: rest =>
      serial :: if discoverable env serial then attempted env rest else []
  end.

(** The serials looked for, in the order of the log. *)
Fixpoint found (t : list Event) : list string :=
  match t with
  | [] => []
  | EFind serial :: r => serial :: found r
  | _ :: r => found r
  end.

(** All that [execute_sequence] reads of a token: its first character, if
    any, and whether it ends in a quote. *)
Definition move_key (move : string) : option string * bool :=
  (Py.index0 move, Py.endswith move "'").

(** The effects of the command loop: console, clock, printing, the
    settling sleep, and reads and writes of [input_pos]. *)
Definition loop_event (e : Event) : bool :=
  match e with
  | EInput | EClock | EPrint _ | ESleep _ => true
  | ERead _ A_input_pos | EWrite _ A_input_pos _ => true
  | _ => false
  end.

(** The effects of connecting and setting up: anything but a console read,
    a clock read, or the announcement of a move. *)
Definition preparing_event (e : Event) : bool :=
  match e with
  | EInput | EClock | EPrint (MMove _) => false
  | _ => true
  end.

(** Two axes that differ at most in [input_pos]. *)
Definition same_configuration (a b : Axis) : Prop :=
  control_mode a = control_mode b /\
  input_mode a = input_mode b /\
  vel_limit a = vel_limit b /\
  accel_limit a = accel_limit b /\
  decel_limit a = decel_limit b /\
  requested_state a = requested_state b.

(** The state in which the S or U command hands over to [execute_sequence],
    and the state in which the loop goes on after it. *)
Definition announced (start : Msg) (st : State) : State :=
  log EClock (log (EPrint start) (log EInput st)).

Definition completed (finish : Msg) (st : State) : State :=
  log (EPrint finish) (log EClock st).

(** ** Controllers that do as asked, lines in ASCII, and synced axes *)


(** The line is ASCII text: on such lines, and on such lines only, is
    [Py.upper] all that [str.upper] does. *)
Fixpoint ascii_line (s : string) : bool :=
  match s with
  | EmptyString => true
  | String c r => (nat_of_ascii c <? 128)%nat && ascii_line r
  end.

(** Since the log was [base], the axis of [odrv] has gone through an
    iteration of [setup_motors], and holds what the last such iteration
    wrote: the configuration, and as [input_pos] the position estimate the
    controller gave at the read of that iteration. *)
Definition synced_axis (env : Env) (base : list Event) (st' : State)
           (odrv : string) : Prop :=
  exists earlier later,
    trace st' =
      (base ++ earlier) ++ configuring odrv ++
      entering odrv (synced_position env odrv (base ++ earlier)) ++ later /\
    axis0 st' odrv = set_up (synced_position env odrv (base ++ earlier)).

(** * Properties *)

(** ** Floats *)

Lemma SFsub_as_SFadd (x y : spec_float) :
  SFsub prec emax x y = SFadd prec emax x (SFopp y).
Proof.
  destruct x as [sx | sx | | sx mx ex], y as [sy | sy | | sy my ey];
    try reflexivity; destruct sx, sy; reflexivity.
Qed.

(** Binary64 subtraction is addition of the negation. *)
Lemma float_sub_as_add (x y : float) :
  PrimFloat.sub x y = PrimFloat.add x (PrimFloat.opp y).
Proof.
  apply Prim2SF_inj.
  rewrite sub_spec, add_spec, opp_spec.
  apply SFsub_as_SFadd.
Qed.

Lemma quarter_cw : Py.int_mul_float 1 0.25 = 0.25%float.
Proof. reflexivity. Qed.

Lemma quarter_ccw : Py.int_mul_float (-1) 0.25 = PrimFloat.opp 0.25.
Proof. reflexivity. Qed.

(** ** Dictionaries *)

Lemma dict_get_In {V} (d : dict V) k v :
  dict_get k d = Some v -> In (k, v) d.
Proof.
  induction d as [| [k' v'] r IH]; simpl; [discriminate |].
  destruct (String.eqb_spec k' k) as [-> | _].
  - intros [= ->]. now left.
  - intros H. right. now apply IH.
Qed.

Lemma dict_get_value {V} (d : dict V) k v :
  dict_get k d = Some v -> In v (values d).
Proof.
  intros H. apply dict_get_In in H.
  unfold values. change v with (snd (k, v)). now apply in_map.
Qed.

(** ** The state after one step *)

Lemma trace_log e st : trace (log e st) = trace st ++ [e].
Proof. reflexivity. Qed.

Lemma trace_store odrv upd st : trace (store odrv upd st) = trace st.
Proof. reflexivity. Qed.

Lemma axis0_log e st s : axis0 (log e st) s = axis0 st s.
Proof. reflexivity. Qed.

Lemma axis0_store_same odrv upd st :
  axis0 (store odrv upd st) odrv = upd (axis0 st odrv).
Proof. unfold store; simpl. now rewrite String.eqb_refl. Qed.

Lemma axis0_store_other odrv upd st s :
  s <> odrv -> axis0 (store odrv upd st) s = axis0 st s.
Proof.
  intros H. unfold store; simpl.
  destruct (String.eqb_spec s odrv); [contradiction | reflexivity].
Qed.

(** ** Runs on sample controllers *)

Example upper_q : Py.upper "q" = "Q".
Proof. reflexivity. Qed.

Example endswith_quote :
  Py.endswith "R'" "'" = true /\ Py.endswith "R" "'" = false /\
  Py.endswith "" "'" = false.
Proof. repeat split. Qed.

(** The controller of face B does not answer: three connections, the
    failure, and [main] returns. *)
Example run_back_missing :
  main Sample.back_missing ["S"] (boot (fun _ => Sample.axis 0)) =
  (Ok tt,
   mkState SERIALS SCRAMBLE_SEQUENCE UNSCRAMBLE_SEQUENCE
     (fun _ => Sample.axis 0)
     [ EPrint MConnecting;
       EFind "395634623331"; EPrint (MConnected "D" "395634623331");
       EFind "395134633331"; EPrint (MConnected "U" "395134633331");
       EFind "396034693331"; EPrint (MConnected "L" "396034693331");
       EFind "3971346B3331"; EPrint (MFailed "B" "3971346B3331");
       EPrint MFailedToConnect ]).
Proof. reflexivity. Qed.

(** An empty token raises [IndexError] after the moves before it; the moves
    after it are not run. *)
Example run_empty_token :
  let r := execute_sequence SERIALS ["R"; ""; "U"]
                            (boot (fun _ => Sample.axis 0)) in
  fst r = Raise IndexError /\
  trace (snd r) =
    [ EPrint (MMove "R"); ERead "395934593331" A_input_pos;
      EWrite "395934593331" A_input_pos (VFloat 0.25);
      ESleep settle_seconds; EPrint MDone ].
Proof. split; reflexivity. Qed.

(** With no console line left, [input] raises [EOFError] out of [main]. *)
Example run_end_of_input :
  fst (main (Sample.healthy 0) [] (boot (fun _ => Sample.axis 0)))
  = Raise EOFError.
Proof. vm_compute. reflexivity. Qed.

(** The S command from rest: where the scramble leaves the six faces
    D, U, L, B, F, R. *)
Example run_scramble :
  let r := command_loop SERIALS ["s"; "q"] (boot (fun _ => Sample.axis 0)) in
  fst r = Ok tt /\
  map (fun s => input_pos (axis0 (snd r) s)) (values SERIALS) =
    [(-0.25)%float; 0.25%float; 0%float; 0.25%float; 0.25%float; 0%float].
Proof. split; vm_compute; reflexivity. Qed.

(** ** One move *)

Lemma parse_move_nonempty c tail st :
  parse_move (String c tail) st =
  (Ok (String c EmptyString,
       if Py.endswith (String c tail) "'" then (-1)%Z else 1%Z), st).
Proof.
  unfold parse_move.
  destruct (Py.endswith (String c tail) "'"); reflexivity.
Qed.

Lemma parse_move_empty st : parse_move "" st = (Raise IndexError, st).
Proof. reflexivity. Qed.

Lemma index0_nonempty move face :
  Py.index0 move = Some face ->
  exists c tail, move = String c tail /\ face = String c EmptyString.
Proof.
  destruct move as [| c tail]; simpl; [discriminate |].
  intros [= <-]. now exists c, tail.
Qed.

Lemma execute_move_connected odrives move face odrv st :
  Py.index0 move = Some face ->
  dict_get face odrives = Some odrv ->
  execute_move odrives move st = (Ok tt, moved odrv move st).
Proof.
  intros Hface Hget.
  destruct (index0_nonempty _ _ Hface) as (c & tail & -> & ->).
  unfold execute_move, bind. rewrite parse_move_nonempty.
  rewrite Hget. unfold moved, quarter_target, rotate, bind, read, assign,
    sleep, print, emit.
  destruct (Py.endswith (String c tail) "'").
  - rewrite quarter_ccw, <- float_sub_as_add. reflexivity.
  - rewrite quarter_cw. reflexivity.
Qed.

Lemma execute_move_skipped odrives c tail st :
  dict_get (String c EmptyString) odrives = None ->
  execute_move odrives (String c tail) st =
  (Ok tt, log (EPrint (MNotConnected (String c EmptyString))) st).
Proof.
  intros Hget. unfold execute_move, bind.
  rewrite parse_move_nonempty, Hget. reflexivity.
Qed.

Lemma execute_sequence_cons odrives move rest st st1 :
  execute_move odrives move st = (Ok tt, st1) ->
  execute_sequence odrives (move :: rest) st =
  execute_sequence odrives rest st1.
Proof.
  intros H. cbn [execute_sequence]. unfold bind at 1. now rewrite H.
Qed.

(** ** Handles *)

Lemma memb_In x l : memb x l = true <-> In x l.
Proof.
  induction l as [| y r IH]; simpl; [easy |].
  rewrite orb_true_iff, IH, String.eqb_eq. tauto.
Qed.

Lemma distinct_handles_inj (odrives : dict string) f1 f2 h :
  distinct (values odrives) = true ->
  dict_get f1 odrives = Some h ->
  dict_get f2 odrives = Some h ->
  f1 = f2.
Proof.
  induction odrives as [| [k v] r IH]; simpl; [discriminate |].
  rewrite andb_true_iff, negb_true_iff. intros [Hv Hr].
  destruct (String.eqb_spec k f1) as [E1 | N1],
           (String.eqb_spec k f2) as [E2 | N2].
  - congruence.
  - intros [= ->] H2. apply dict_get_value, memb_In in H2. congruence.
  - intros H1 [= ->]. apply dict_get_value, memb_In in H1. congruence.
  - now apply IH.
Qed.

(** ** Claims about a single move *)



(** C7. A single move on a connected face X logs exactly: the move's
    announcement, one read of X's commanded [input_pos], one write of X's
    [input_pos], the settling sleep, and "done". So there is one write, to
    X's handle; nothing the controller reports ([pos_estimate],
    [current_state]) is read, and nothing is written twice. The axis of
    every other handle is as it was, hence (handles being distinct) that of
    every other face. *)
Theorem C7_single_move_writes_once_and_frames odrives move face odrv st :
  Py.index0 move = Some face ->
  dict_get face odrives = Some odrv ->
  distinct (values odrives) = true ->
  exists st' target,
    execute_sequence odrives [move] st = (Ok tt, st') /\
    trace st' =
      trace st ++ [ EPrint (MMove move); ERead odrv A_input_pos;
                    EWrite odrv A_input_pos (VFloat target);
                    ESleep settle_seconds; EPrint MDone ] /\
    (forall s, s <> odrv -> axis0 st' s = axis0 st s) /\
    (forall face' odrv',
        face' <> face -> dict_get face' odrives = Some odrv' ->
        axis0 st' odrv' = axis0 st odrv').
Proof.
  intros Hface Hget Hdistinct.
  exists (moved odrv move st),
         (quarter_target move (input_pos (axis0 st odrv))).
  assert (Hframe : forall s, s <> odrv ->
                             axis0 (moved odrv move st) s = axis0 st s).
  { intros s Hs. unfold moved. rewrite !axis0_log.
    now rewrite axis0_store_other. }
  split; [| split; [| split]].
  - rewrite (execute_sequence_cons odrives move [] st (moved odrv move st)).
    + reflexivity.
    + now apply execute_move_connected with face.
  - unfold moved. rewrite !trace_log, trace_store, !trace_log.
    rewrite <- !app_assoc. reflexivity.
  - exact Hframe.
  - intros face' odrv' Hne Hget'. apply Hframe. intros ->.
    apply Hne. exact (distinct_handles_inj odrives face' face odrv
                        Hdistinct Hget' Hget).
Qed.

(** The move F' with all six faces connected. *)
Lemma C7_witness :
  exists st' target,
    execute_sequence SERIALS ["F'"] (boot (fun _ => Sample.axis 0)) =
      (Ok tt, st') /\
    trace st' =
      trace (boot (fun _ => Sample.axis 0)) ++
      [ EPrint (MMove "F'"); ERead "395134623331" A_input_pos;
        EWrite "395134623331" A_input_pos (VFloat target);
        ESleep settle_seconds; EPrint MDone ] /\
    (forall s, s <> "395134623331" ->
               axis0 st' s = axis0 (boot (fun _ => Sample.axis 0)) s) /\
    (forall face' odrv',
        face' <> "F" -> dict_get face' SERIALS = Some odrv' ->
        axis0 st' odrv' = axis0 (boot (fun _ => Sample.axis 0)) odrv').
Proof.
  exact (C7_single_move_writes_once_and_frames SERIALS "F'" "F"
           "395134623331" (boot (fun _ => Sample.axis 0))
           eq_refl eq_refl eq_refl).
Defined.

(** C9. The face of a token is its first character alone, whatever
    follows it. When that character is not a key of the mapping of
    connected handles, the move is skipped: the "not connected" message is
    the only effect, no axis changes, and the run goes on with the rest of
    the sequence. *)
Theorem C9_unconnected_face_is_skipped odrives c tail rest st :
  dict_get (String c EmptyString) odrives = None ->
  (exists direction,
      parse_move (String c tail) st =
        (Ok (String c EmptyString, direction), st)) /\
  exists st1,
    execute_sequence odrives (String c tail :: rest) st =
      execute_sequence odrives rest st1 /\
    trace st1 = trace st ++ [EPrint (MNotConnected (String c EmptyString))] /\
    axis0 st1 = axis0 st.
Proof.
  intros Hget. split.
  - rewrite parse_move_nonempty. eauto.
  - exists (log (EPrint (MNotConnected (String c EmptyString))) st).
    split; [| split]; try reflexivity.
    apply execute_sequence_cons. now apply execute_move_skipped.
Qed.

(** The token M2' names face M, which the mapping does not have. *)
Lemma C9_witness :
  (exists direction,
      parse_move "M2'" (boot (fun _ => Sample.axis 0)) =
        (Ok ("M", direction), boot (fun _ => Sample.axis 0))) /\
  exists st1,
    execute_sequence SERIALS ["M2'"; "R"] (boot (fun _ => Sample.axis 0)) =
      execute_sequence SERIALS ["R"] st1 /\
    trace st1 =
      trace (boot (fun _ => Sample.axis 0)) ++ [EPrint (MNotConnected "M")] /\
    axis0 st1 = axis0 (boot (fun _ => Sample.axis 0)).
Proof.
  exact (C9_unconnected_face_is_skipped SERIALS "M"%char "2'" ["R"]
           (boot (fun _ => Sample.axis 0)) eq_refl).
Defined.

(** ** Whole sequences *)

(** The three ways the first token of a sequence goes. *)
Lemma execute_sequence_cases odrives move rest st :
  (move = "" /\
   execute_sequence odrives (move :: rest) st = (Raise IndexError, st)) \/
  (exists face,
      Py.index0 move = Some face /\ dict_get face odrives = None /\
      execute_sequence odrives (move :: rest) st =
        execute_sequence odrives rest (log (EPrint (MNotConnected face)) st)) \/
  (exists face odrv,
      Py.index0 move = Some face /\ dict_get face odrives = Some odrv /\
      execute_sequence odrives (move :: rest) st =
        execute_sequence odrives rest (moved odrv move st)).
Proof.
  destruct move as [| c tail].
  - left. split; reflexivity.
  - right. destruct (dict_get (String c EmptyString) odrives) as [odrv |] eqn:Hget.
    + right. exists (String c EmptyString), odrv. repeat split; trivial.
      apply execute_sequence_cons.
      now apply execute_move_connected with (String c EmptyString).
    + left. exists (String c EmptyString). repeat split; trivial.
      apply execute_sequence_cons. now apply execute_move_skipped.
Qed.

Lemma execute_sequence_app odrives s1 s2 st :
  execute_sequence odrives (s1 ++ s2) st =
  (execute_sequence odrives s1 ;;; execute_sequence odrives s2) st.
Proof.
  revert st. induction s1 as [| move rest IH]; intros st; [reflexivity |].
  cbn [app execute_sequence]. unfold bind.
  destruct (execute_move odrives move st) as [[[] | e] st1]; [| reflexivity].
  rewrite IH. reflexivity.
Qed.

Lemma trace_moved odrv move st :
  trace (moved odrv move st) =
  trace st ++
  [ EPrint (MMove move); ERead odrv A_input_pos;
    EWrite odrv A_input_pos
           (VFloat (quarter_target move (input_pos (axis0 st odrv))));
    ESleep settle_seconds; EPrint MDone ].
Proof.
  unfold moved. rewrite !trace_log, trace_store, !trace_log.
  rewrite <- !app_assoc. reflexivity.
Qed.


(** ** Where a sequence leaves the commanded positions *)

Lemma quarter_target_step move p :
  quarter_target move p = step p (direction move).
Proof.
  unfold quarter_target, step, direction.
  destruct (Py.endswith move "'").
  - now rewrite quarter_ccw, float_sub_as_add.
  - now rewrite quarter_cw.
Qed.

Lemma with_input_pos_same a : with_input_pos (input_pos a) a = a.
Proof. now destruct a. Qed.

Lemma axis0_moved odrv move st s :
  axis0 (moved odrv move st) s =
  if String.eqb s odrv
  then with_input_pos (step (input_pos (axis0 st odrv)) (direction move))
                      (axis0 st odrv)
  else axis0 st s.
Proof.
  unfold moved. rewrite !axis0_log, quarter_target_step.
  destruct (String.eqb_spec s odrv) as [-> | Hs].
  - now rewrite axis0_store_same, axis0_log.
  - now rewrite axis0_store_other, axis0_log.
Qed.

(** After a sequence, the axis of every handle is as before except for its
    [input_pos], which has taken the handle's commands one binary64 addition
    at a time. *)
Lemma execute_sequence_axis0 odrives sequence st s :
  axis0 (snd (execute_sequence odrives sequence st)) s =
  with_input_pos
    (fold_left step (turns_of s (commands odrives sequence))
               (input_pos (axis0 st s)))
    (axis0 st s).
Proof.
  revert st. induction sequence as [| move rest IH]; intros st.
  - cbn. now rewrite with_input_pos_same.
  - destruct (execute_sequence_cases odrives move rest st)
      as [[-> ->] | [(face & Hface & Hget & ->) | (face & odrv & Hface & Hget & ->)]].
    + cbn. now rewrite with_input_pos_same.
    + rewrite IH. cbn [commands]. rewrite Hface, Hget. reflexivity.
    + rewrite IH. cbn [commands]. rewrite Hface, Hget.
      unfold turns_of. cbn [filter fst]. rewrite axis0_moved.
      destruct (String.eqb s odrv) eqn:E.
      * apply String.eqb_eq in E. subst s. reflexivity.
      * reflexivity.
Qed.

(** A sequence without an empty token runs to its end. *)
Lemma execute_sequence_returns odrives sequence st :
  forallb nonempty sequence = true ->
  fst (execute_sequence odrives sequence st) = Ok tt.
Proof.
  revert st. induction sequence as [| move rest IH]; intros st; [reflexivity |].
  cbn [forallb]. rewrite andb_true_iff. intros [Hmove Hrest].
  destruct (execute_sequence_cases odrives move rest st)
    as [[-> _] | [(face & _ & _ & ->) | (face & odrv & _ & _ & ->)]];
    [discriminate | now apply IH | now apply IH].
Qed.

Lemma commands_handles odrives sequence h d :
  In (h, d) (commands odrives sequence) -> In h (values odrives).
Proof.
  induction sequence as [| move rest IH]; cbn [commands]; [easy |].
  destruct (Py.index0 move) as [face |]; [| easy].
  destruct (dict_get face odrives) as [odrv |] eqn:Hget; [| exact IH].
  intros [[= <- _] | H]; [| now apply IH].
  now apply dict_get_value with face.
Qed.

(** A handle outside the mapping gets no command. *)
Lemma turns_of_stranger odrives sequence s :
  ~ In s (values odrives) -> turns_of s (commands odrives sequence) = [].
Proof.
  intros Hs. unfold turns_of.
  assert (H : forall h d, In (h, d) (commands odrives sequence) -> h <> s).
  { intros h d Hin ->. apply Hs. now apply commands_handles in Hin. }
  induction (commands odrives sequence) as [| [h d] r IH]; [reflexivity |].
  cbn [filter fst].
  destruct (String.eqb_spec s h) as [-> | _].
  - exfalso. now apply (H h d); [left |].
  - apply IH. intros h' d' Hin. apply (H h' d'). now right.
Qed.

(** ** Scramble, then unscramble *)

Lemma round_trips_steps p :
  round_trips p ->
  step (step p 1) (-1) = p /\ step (step p (-1)) 1 = p.
Proof.
  unfold round_trips, step.
  rewrite quarter_cw, quarter_ccw, <- !float_sub_as_add. trivial.
Qed.



(** With all six faces connected, scrambling and then unscrambling runs to
    its end and leaves every axis exactly as it was, when each face starts
    from a position that round-trips. *)
Lemma scramble_then_unscramble_restores st :
  (forall s, In s (values SERIALS) -> round_trips (input_pos (axis0 st s))) ->
  exists st',
    scramble_then_unscramble SERIALS st = (Ok tt, st') /\
    forall s, axis0 st' s = axis0 st s.
Proof.
  intros Hexact.
  unfold scramble_then_unscramble. rewrite <- execute_sequence_app.
  set (both := SCRAMBLE_SEQUENCE ++ UNSCRAMBLE_SEQUENCE).
  destruct (execute_sequence SERIALS both st) as [r st'] eqn:Hrun.
  assert (Hr : r = Ok tt).
  { change r with (fst (r, st')). rewrite <- Hrun.
    now apply execute_sequence_returns. }
  subst r. exists st'. split; [reflexivity |].
  intros s. change st' with (snd (Ok tt, st')). rewrite <- Hrun.
  rewrite execute_sequence_axis0.
  destruct (memb s (values SERIALS)) eqn:Hs.
  - apply memb_In in Hs.
    destruct (round_trips_steps _ (Hexact s Hs)) as [Hup Hdown].
    cbn in Hs.
    repeat (destruct Hs as [<- | Hs];
            [ match goal with
              | |- context [turns_of ?h ?c] =>
                  let t := eval vm_compute in (turns_of h c) in
                  change (turns_of h c) with t
              end;
              cbn [fold_left];
              repeat (rewrite Hup || rewrite Hdown);
              apply with_input_pos_same
            | ]).
    contradiction.
  - rewrite turns_of_stranger.
    + apply with_input_pos_same.
    + rewrite <- memb_In. congruence.
Qed.

Lemma round_tripsb_spec p : round_tripsb p = true -> round_trips p.
Proof.
  unfold round_tripsb, round_trips. rewrite andb_true_iff.
  now rewrite !Leibniz.eqb_spec.
Qed.

Lemma span_In n k :
  (- Z.of_nat n <= k <= Z.of_nat n)%Z -> In k (span n).
Proof.
  intros Hk. unfold span. apply in_map_iff.
  exists (Z.to_nat (k + Z.of_nat n)). split; [lia |].
  apply in_seq. lia.
Qed.

Lemma round_trips_checked :
  forallb (fun k => round_tripsb (quarter k)) (span 400) = true.
Proof. vm_compute. reflexivity. Qed.

(** Every whole number of quarter turns within a hundred turns either way
    round-trips. *)
Lemma round_trips_quarter_turns k :
  (-400 <= k <= 400)%Z -> round_trips (quarter k).
Proof.
  intros Hk. apply round_tripsb_spec.
  pose proof round_trips_checked as H. rewrite forallb_forall in H.
  apply H, span_In. cbn. lia.
Qed.

(** So, from commanded positions that are whole numbers of quarter turns
    within a hundred turns, the scramble is undone exactly. *)
Corollary scramble_then_unscramble_restores_quarter_turns st :
  (forall s, In s (values SERIALS) ->
             exists k, (-400 <= k <= 400)%Z /\
                       input_pos (axis0 st s) = quarter k) ->
  exists st',
    scramble_then_unscramble SERIALS st = (Ok tt, st') /\
    forall s, axis0 st' s = axis0 st s.
Proof.
  intros H. apply scramble_then_unscramble_restores.
  intros s Hs. destruct (H s Hs) as (k & Hk & ->).
  now apply round_trips_quarter_turns.
Qed.



(** ** Quarter-turn multiples *)

Lemma exact_steps_quarter_turns p ds :
  exact_steps p ds ->
  quarter_turns_apart p (fold_left step ds p) (fold_left Z.add ds 0%Z).
Proof.
  assert (G : forall ds p p0 k,
             quarter_turns_apart p0 p k -> exact_steps p ds ->
             quarter_turns_apart p0 (fold_left step ds p)
                                 (fold_left Z.add ds k)).
  { clear. induction ds as [| d r IH]; intros p p0 k Hk Hds; [exact Hk |].
    destruct Hds as [Hd Hr]. cbn [fold_left]. apply IH; [| exact Hr].
    destruct Hk as (q0 & q & E0 & E & Hq).
    destruct Hd as (q' & q1 & E' & E1 & Hq1).
    rewrite E in E'. injection E' as <-.
    exists q0, q1. repeat split; trivial.
    rewrite Hq1, Hq, inject_Z_plus. ring. }
  intros Hds. apply G; [| exact Hds].
  assert (Hp : exact p <> None) by (destruct ds; cbn in Hds; [trivial | ];
    destruct Hds as [(q & ? & E & _) _]; congruence).
  destruct (exact p) as [q |] eqn:E; [| congruence].
  exists q, q. repeat split; trivial. cbn. ring.
Qed.

Lemma exact_quarter_checked : forallb exact_quarterb (span 400) = true.
Proof. vm_compute. reflexivity. Qed.

Lemma steps_quarter_checked : forallb steps_quarterb (span 399) = true.
Proof. vm_compute. reflexivity. Qed.

(** Within a hundred turns, the quarters are exact and one command apart. *)
Lemma exact_quarter k :
  (-400 <= k <= 400)%Z ->
  exists q, exact (quarter k) = Some q /\ (q == inject_Z k * (1 # 4))%Q.
Proof.
  intros Hk. pose proof exact_quarter_checked as H.
  rewrite forallb_forall in H. specialize (H k).
  unfold exact_quarterb in H.
  destruct (exact (quarter k)) as [q |].
  - exists q. split; [reflexivity |]. apply Qeq_bool_iff. apply H.
    apply span_In. cbn. lia.
  - discriminate H. apply span_In. cbn. lia.
Qed.

Lemma step_quarter k d :
  (-399 <= k <= 399)%Z -> d = 1%Z \/ d = (-1)%Z ->
  step (quarter k) d = quarter (k + d).
Proof.
  intros Hk Hd. pose proof steps_quarter_checked as H.
  rewrite forallb_forall in H. specialize (H k).
  unfold steps_quarterb in H. rewrite andb_true_iff, !Leibniz.eqb_spec in H.
  destruct H as [H1 H2]; [apply span_In; cbn; lia |].
  destruct Hd as [-> | ->]; assumption.
Qed.

Lemma fold_left_add_shift ds a :
  fold_left Z.add ds a = (a + fold_left Z.add ds 0)%Z.
Proof.
  revert a. induction ds as [| d r IH]; intros a; cbn; [lia |].
  rewrite IH, (IH d). lia.
Qed.

(** From a whole number of quarter turns, commands up and down are exact
    as long as they stay within a hundred turns. *)
Lemma exact_steps_from_quarter ds k :
  Forall (fun d => d = 1%Z \/ d = (-1)%Z) ds ->
  (Z.abs k + Z.of_nat (List.length ds) <= 400)%Z ->
  exact_steps (quarter k) ds.
Proof.
  revert k. induction ds as [| d r IH]; intros k Hds Hk.
  - cbn [exact_steps]. cbn [List.length] in Hk.
    destruct (exact_quarter k) as (q & E & _); [lia |].
    rewrite E. discriminate.
  - inversion Hds as [| ? ? Hd Hr]; subst. cbn [List.length] in Hk.
    cbn [exact_steps].
    assert (Hstep : step (quarter k) d = quarter (k + d))
      by (apply step_quarter; [lia | assumption]).
    rewrite Hstep. split.
    + destruct (exact_quarter k) as (q & E & Hq); [lia |].
      destruct (exact_quarter (k + d)) as (q' & E' & Hq'); [lia |].
      exists q, q'. repeat split; trivial.
      rewrite Hq', Hq, inject_Z_plus. ring.
    + apply IH; [assumption | lia].
Qed.

Lemma turns_of_unit s odrives sequence :
  Forall (fun d => d = 1%Z \/ d = (-1)%Z) (turns_of s (commands odrives sequence)).
Proof.
  unfold turns_of.
  induction sequence as [| move rest IH]; cbn [commands]; [constructor |].
  destruct (Py.index0 move) as [face |]; [| constructor].
  destruct (dict_get face odrives) as [odrv |]; [| exact IH].
  cbn [filter fst]. destruct (String.eqb s odrv); [| exact IH].
  cbn [map snd]. constructor; [| exact IH].
  unfold direction. destruct (Py.endswith move "'"); auto.
Qed.

Lemma turns_of_length s odrives sequence :
  (List.length (turns_of s (commands odrives sequence)) <= List.length sequence)%nat.
Proof.
  unfold turns_of.
  induction sequence as [| move rest IH]; cbn [commands List.length]; [cbn; lia |].
  destruct (Py.index0 move) as [face |]; [| cbn; lia].
  destruct (dict_get face odrives) as [odrv |]; [| lia].
  cbn [filter fst]. destruct (String.eqb s odrv); cbn [map List.length]; lia.
Qed.

(** So the positions keep to whole numbers of quarter turns from the start,
    when the start is itself a whole number of quarter turns and the moves
    cannot take it beyond a hundred turns. *)
Corollary quarter_turns_stay_exact odrives sequence st s k :
  input_pos (axis0 st s) = quarter k ->
  (Z.abs k + Z.of_nat (List.length sequence) <= 400)%Z ->
  quarter_turns_apart
    (input_pos (axis0 st s))
    (input_pos (axis0 (snd (execute_sequence odrives sequence st)) s))
    (fold_left Z.add (turns_of s (commands odrives sequence)) 0%Z).
Proof.
  intros Hp Hk. rewrite execute_sequence_axis0. cbn [input_pos with_input_pos].
  apply exact_steps_quarter_turns. rewrite Hp.
  apply exact_steps_from_quarter; [apply turns_of_unit |].
  pose proof (turns_of_length s odrives sequence). lia.
Qed.

(** C10, as stated, fails: with every axis reporting one tenth of a turn
    during setup, the S command leaves face R at 0.09999999999999998, which
    is no whole number of quarter turns from the 0.1 setup gave it. *)
Lemma C10_counterexample_not_quarter_multiple :
  input_pos
    (axis0 (snd (setup_motors (Sample.healthy Sample.tenth) SERIALS
                   (boot (fun _ => Sample.axis 0))))
           "395934593331")
    = 0x1.999999999999ap-4%float /\
  input_pos
    (axis0 (snd (execute_sequence SERIALS SCRAMBLE_SEQUENCE
                   (snd (setup_motors (Sample.healthy Sample.tenth) SERIALS
                           (boot (fun _ => Sample.axis 0))))))
           "395934593331")
    = 0x1.9999999999998p-4%float /\
  ~ quarter_multiple
      (input_pos
         (axis0 (snd (setup_motors (Sample.healthy Sample.tenth) SERIALS
                        (boot (fun _ => Sample.axis 0))))
                "395934593331"))
      (input_pos
         (axis0 (snd (execute_sequence SERIALS SCRAMBLE_SEQUENCE
                        (snd (setup_motors (Sample.healthy Sample.tenth)
                                SERIALS (boot (fun _ => Sample.axis 0))))))
                "395934593331")).
Proof.
  split; [vm_compute; reflexivity | split; [vm_compute; reflexivity |]].
  intros (k & q0 & q & E0 & E & Hq).
  vm_compute in E0. vm_compute in E.
  injection E0 as <-. injection E as <-.
  unfold Qeq in Hq. cbn [Qnum Qden Qplus Qmult inject_Z] in Hq. lia.
Qed.

(** C10, amended. From any state, in particular the one [setup_motors]
    returns in, a sequence of moves leaves the commanded position of every
    handle at its earlier value with the handle's quarter turns added one
    binary64 addition at a time. When each of these additions is exact, the
    position is the earlier one plus [k] quarter turns, [k] being the
    signed count of the handle's moves; an inexact addition (as from one
    tenth of a turn) breaks that form. *)
Theorem C10_positions_move_by_binary64_quarter_steps odrives sequence st s :
  input_pos (axis0 (snd (execute_sequence odrives sequence st)) s) =
    fold_left step (turns_of s (commands odrives sequence))
              (input_pos (axis0 st s)) /\
  (exact_steps (input_pos (axis0 st s))
               (turns_of s (commands odrives sequence)) ->
   quarter_turns_apart
     (input_pos (axis0 st s))
     (input_pos (axis0 (snd (execute_sequence odrives sequence st)) s))
     (fold_left Z.add (turns_of s (commands odrives sequence)) 0%Z)).
Proof.
  rewrite execute_sequence_axis0. cbn [input_pos with_input_pos].
  split; [reflexivity |]. apply exact_steps_quarter_turns.
Qed.

(** From a setup position of a turn and a half, the scramble's four moves
    of face R are exact and cancel out. *)
Lemma C10_witness :
  quarter_turns_apart
    (input_pos
       (axis0 (snd (setup_motors (Sample.healthy 1.5) SERIALS
                      (boot (fun _ => Sample.axis 0))))
              "395934593331"))
    (input_pos
       (axis0 (snd (execute_sequence SERIALS SCRAMBLE_SEQUENCE
                      (snd (setup_motors (Sample.healthy 1.5) SERIALS
                              (boot (fun _ => Sample.axis 0))))))
              "395934593331"))
    0.
Proof.
  apply (proj2 (C10_positions_move_by_binary64_quarter_steps
                  SERIALS SCRAMBLE_SEQUENCE
                  (snd (setup_motors (Sample.healthy 1.5) SERIALS
                          (boot (fun _ => Sample.axis 0))))
                  "395934593331")).
  vm_compute.
  repeat split;
    try (do 2 eexists; repeat split; reflexivity);
    discriminate.
Defined.

(** ** Setup *)

Lemma setup_one_spec env face odrv st :
  let before := trace st ++ configuring odrv in
  let p := pos_estimate env odrv before in
  let entered := before ++ entering odrv p in
  let state := current_state env odrv entered in
  let p' := pos_estimate env odrv (entered ++ [ERead odrv A_current_state]) in
  exists st',
    setup_one env face odrv st = (Ok tt, st') /\
    trace st' = entered ++ verifying face odrv state p' /\
    (forall s, axis0 st' s = if String.eqb s odrv then set_up p else axis0 st s) /\
    globals st' = globals st.
Proof.
  intros before p entered state p'. subst before p entered state p'.
  unfold setup_one, bind, assign, report, sleep, print, emit,
    configuring, entering, verifying.
  cbn [trace log store]. rewrite <- !app_assoc. cbn [app].
  destruct (AxisState_eqb _ CLOSED_LOOP_CONTROL); cbn [negb];
    eexists; (split; [reflexivity |]);
    cbn [trace axis0 log store globals g_SERIALS g_SCRAMBLE_SEQUENCE
           g_UNSCRAMBLE_SEQUENCE];
    rewrite <- ?app_assoc; cbn [app];
    (split; [reflexivity | split; [| reflexivity]]);
    intros s; destruct (String.eqb s odrv); reflexivity.
Qed.

Lemma setup_one_block env face odrv st :
  exists st',
    setup_one env face odrv st = (Ok tt, st') /\
    trace st' = trace st ++ setup_block env face odrv (trace st) /\
    (forall s, axis0 st' s =
               if String.eqb s odrv
               then set_up (synced_position env odrv (trace st))
               else axis0 st s) /\
    globals st' = globals st.
Proof.
  destruct (setup_one_spec env face odrv st) as (st' & Hrun & Ht & Ha & Hg).
  exists st'. repeat split; trivial.
  rewrite Ht. unfold setup_block. now rewrite <- !app_assoc.
Qed.

Lemma synced_setup_block env face odrv history rest :
  synced (setup_block env face odrv history ++ rest) = synced rest.
Proof.
  unfold setup_block, configuring, entering, verifying.
  cbn [app synced]. rewrite String.eqb_refl. cbn [andb].
  destruct (AxisState_eqb _ CLOSED_LOOP_CONTROL); reflexivity.
Qed.

Lemma set_up_in_app env face odrv t more :
  set_up_in env face odrv t -> set_up_in env face odrv (t ++ more).
Proof.
  intros (pre & post & ->). exists pre, (post ++ more).
  now rewrite <- !app_assoc.
Qed.

Lemma setup_loop_spec env items st :
  exists st' new,
    setup_loop env items st = (Ok tt, st') /\
    trace st' = trace st ++ new /\
    (forall rest, synced (new ++ rest) = synced rest) /\
    (forall face odrv, In (face, odrv) items ->
                       set_up_in env face odrv (trace st') /\
                       configured (axis0 st' odrv)) /\
    (forall s, configured (axis0 st s) -> configured (axis0 st' s)) /\
    (forall s, ~ In s (values items) -> axis0 st' s = axis0 st s) /\
    globals st' = globals st.
Proof.
  revert st. induction items as [| [face odrv] rest IH]; intros st.
  - exists st, []. cbn. rewrite app_nil_r.
    split; [reflexivity | split; [reflexivity | split; [reflexivity |]]].
    split; [intros ? ? [] | split; [trivial | split; reflexivity]].
  - destruct (setup_one_block env face odrv st) as (st1 & Hrun & Ht & Ha & Hg).
    destruct (IH st1) as (st' & new & Hrun' & Ht' & Hs & Hin & Hkeep & Hframe & Hg').
    exists st', (setup_block env face odrv (trace st) ++ new).
    assert (Hone : configured (axis0 st1 odrv)).
    { rewrite Ha, String.eqb_refl. repeat split. }
    split; [| split; [| split; [| split; [| split; [| split]]]]].
    + cbn [setup_loop]. unfold bind. now rewrite Hrun.
    + now rewrite Ht', Ht, <- app_assoc.
    + intros more. now rewrite <- app_assoc, synced_setup_block.
    + intros f o [[= -> ->] | Hrest].
      * split; [| now apply Hkeep].
        rewrite Ht'. apply set_up_in_app. rewrite Ht.
        exists (trace st), []. now rewrite app_nil_r.
      * now apply Hin.
    + intros s Hc. apply Hkeep. rewrite Ha.
      destruct (String.eqb_spec s odrv) as [-> | _]; [| exact Hc].
      repeat split.
    + intros s Hs'. cbn in Hs'. rewrite Hframe by tauto. rewrite Ha.
      destruct (String.eqb_spec s odrv) as [-> | _]; [| reflexivity].
      exfalso. apply Hs'. now left.
    + now rewrite Hg'.
Qed.

Lemma setup_motors_spec env odrives st :
  exists st' new,
    setup_motors env odrives st = (Ok tt, st') /\
    trace st' = trace st ++ new /\
    synced new = true /\
    last new EInput = EPrint MAllReady /\
    (forall face odrv, In (face, odrv) odrives ->
                       set_up_in env face odrv (trace st') /\
                       configured (axis0 st' odrv)) /\
    (forall s, ~ In s (values odrives) -> axis0 st' s = axis0 st s) /\
    globals st' = globals st.
Proof.
  destruct (setup_loop_spec env odrives (log (EPrint MSettingUp) st))
    as (st1 & new & Hrun & Ht & Hs & Hin & _ & Hframe & Hg).
  exists (log (EPrint MAllReady) st1),
         (EPrint MSettingUp :: new ++ [EPrint MAllReady]).
  split; [| split; [| split; [| split; [| split; [| split]]]]].
  - unfold setup_motors, bind, print, emit. now rewrite Hrun.
  - rewrite trace_log, Ht, trace_log, <- !app_assoc. reflexivity.
  - cbn [synced]. now rewrite Hs.
  - rewrite app_comm_cons. apply last_last.
  - intros f o Hfo. destruct (Hin f o Hfo) as [Hset Hconf]. split.
    + rewrite trace_log. now apply set_up_in_app.
    + exact Hconf.
  - intros s Hs'. rewrite axis0_log. now rewrite Hframe.
  - exact Hg.
Qed.






(** ** Connecting *)

Lemma connect_one_spec env face serial odrives st :
  connect_one env face serial odrives st =
  if discoverable env serial
  then (Ok (Some (dict_set face serial odrives)),
        log (EPrint (MConnected face serial)) (log (EFind serial) st))
  else (Ok None,
        log (EPrint (MFailed face serial)) (log (EFind serial) st)).
Proof.
  unfold connect_one, try_except, find_sync, bind, print, emit, ret, raise.
  destruct (discoverable env serial); reflexivity.
Qed.

Lemma allowed_more hs hs' ms ms' e :
  (forall x, memb x hs = true -> memb x hs' = true) ->
  (forall x, memb x ms = true -> memb x ms' = true) ->
  allowed hs ms e = true -> allowed hs' ms' e = true.
Proof.
  intros Hh Hm. destruct e as [s | s a | s a v | d | m | |]; cbn; auto.
  destruct m; auto.
Qed.

Lemma forallb_allowed_more hs hs' ms ms' t :
  (forall x, memb x hs = true -> memb x hs' = true) ->
  (forall x, memb x ms = true -> memb x ms' = true) ->
  forallb (allowed hs ms) t = true -> forallb (allowed hs' ms') t = true.
Proof.
  intros Hh Hm. rewrite !forallb_forall. intros H e He.
  apply allowed_more with hs ms; auto.
Qed.

(** What [connect_odrives] comes to, over any table of serials. *)
Lemma connect_loop_spec env items odrives st :
  exists st' new,
    connect_loop env items odrives st =
      (Ok (if forallb (discoverable env) (values items)
           then Some (fold_left (fun d it => dict_set (fst it) (snd it) d)
                                items odrives)
           else None), st') /\
    trace st' = trace st ++ new /\
    forallb touches_no_axis new = true /\
    forallb (allowed (values items) []) new = true /\
    axis0 st' = axis0 st /\
    globals st' = globals st.
Proof.
  revert odrives st.
  induction items as [| [face serial] rest IH]; intros odrives st.
  - exists st, []. cbn. rewrite app_nil_r. repeat split; trivial.
  - cbn [connect_loop]. unfold bind at 1. rewrite connect_one_spec.
    cbn [values map snd forallb fold_left fst].
    destruct (discoverable env serial).
    + destruct (IH (dict_set face serial odrives)
                   (log (EPrint (MConnected face serial))
                        (log (EFind serial) st)))
        as (st' & new & Hrun & Ht & Hq & Hf & Ha & Hg).
      exists st', (EFind serial :: EPrint (MConnected face serial) :: new).
      cbn [andb]. split; [exact Hrun |].
      split; [rewrite Ht, !trace_log, <- !app_assoc; reflexivity |].
      split; [exact Hq |].
      split; [| split; [exact Ha | exact Hg]].
      change (values ((face, serial) :: rest)) with (serial :: values rest).
      cbn [forallb]. rewrite !andb_true_iff. split; [| split].
      * cbn. now rewrite String.eqb_refl.
      * reflexivity.
      * apply forallb_allowed_more with (hs := values rest) (ms := []);
          [| trivial | exact Hf].
        intros x Hx. cbn [memb]. fold (values rest). rewrite Hx.
        apply orb_true_r.
    + exists (log (EPrint (MFailed face serial)) (log (EFind serial) st)),
             [EFind serial; EPrint (MFailed face serial)].
      cbn [andb]. split; [reflexivity |].
      split; [rewrite !trace_log, <- !app_assoc; reflexivity |].
      split; [reflexivity |].
      split; [| split; reflexivity].
      cbn. now rewrite String.eqb_refl.
Qed.

Lemma connect_odrives_run env st :
  exists st' new,
    connect_odrives env st =
      (Ok (if forallb (discoverable env) (values (g_SERIALS st))
           then Some (fold_left (fun d it => dict_set (fst it) (snd it) d)
                                (g_SERIALS st) [])
           else None), st') /\
    trace st' = trace st ++ new /\
    forallb touches_no_axis new = true /\
    forallb (allowed (values (g_SERIALS st)) []) new = true /\
    axis0 st' = axis0 st /\
    globals st' = globals st.
Proof.
  destruct (connect_loop_spec env (g_SERIALS st) []
                              (log (EPrint MConnecting) st))
    as (st1 & new & Hrun & Ht & Hq & Hf & Ha & Hg).
  unfold connect_odrives, bind, print, emit, get_state.
  cbn [g_SERIALS log]. rewrite Hrun.
  destruct (forallb (discoverable env) (values (g_SERIALS st))).
  - exists (log (EPrint MAllConnected) st1),
           (EPrint MConnecting :: new ++ [EPrint MAllConnected]).
    split; [reflexivity |].
    split; [rewrite trace_log, Ht, trace_log, <- !app_assoc; reflexivity |].
    split; [cbn [forallb touches_no_axis andb];
            rewrite forallb_app, Hq; reflexivity |].
    split; [| split; [exact Ha | exact Hg]].
    cbn [forallb allowed andb]. rewrite forallb_app, Hf. reflexivity.
  - exists st1, (EPrint MConnecting :: new).
    split; [reflexivity |].
    split; [rewrite Ht, trace_log, <- !app_assoc; reflexivity |].
    split; [exact Hq |].
    split; [exact Hf | split; [exact Ha | exact Hg]].
Qed.

Lemma connect_odrives_spec env st :
  g_SERIALS st = SERIALS ->
  exists st' new,
    connect_odrives env st =
      (Ok (if forallb (discoverable env) (values SERIALS)
           then Some SERIALS else None), st') /\
    trace st' = trace st ++ new /\
    forallb touches_no_axis new = true /\
    forallb (allowed (values SERIALS) []) new = true /\
    axis0 st' = axis0 st /\
    globals st' = globals st.
Proof.
  intros HS. destruct (connect_odrives_run env st) as (st' & new & H).
  rewrite HS in H. now exists st', new.
Qed.

(** C6. Connecting is all or nothing. The table has exactly the six
    faces. When every serial of the table answers discovery,
    [connect_odrives] returns the mapping of these six faces, each bound to
    the handle of its serial; when any one does not, it returns [None],
    never a part of the mapping, and [main] then returns having done nothing
    but discovery and printing: no axis is read or written, no wait, and no
    console line is asked for. *)
Theorem C6_connect_is_all_or_nothing env devices stdin :
  keys SERIALS = ["D"; "U"; "L"; "B"; "F"; "R"] /\
  if forallb (discoverable env) (values SERIALS)
  then fst (connect_odrives env (boot devices)) = Ok (Some SERIALS)
  else fst (connect_odrives env (boot devices)) = Ok None /\
       fst (main env stdin (boot devices)) = Ok tt /\
       axis0 (snd (main env stdin (boot devices))) = devices /\
       forallb touches_no_axis (trace (snd (main env stdin (boot devices))))
         = true /\
       last (trace (snd (main env stdin (boot devices)))) EInput
         = EPrint MFailedToConnect.
Proof.
  split; [reflexivity |].
  destruct (connect_odrives_spec env (boot devices) eq_refl)
    as (st' & new & Hrun & Ht & Hq & _ & Ha & _).
  unfold main, bind. rewrite Hrun.
  destruct (forallb (discoverable env) (values SERIALS)); [reflexivity |].
  cbn [fst snd]. unfold print, emit. cbn [fst snd].
  split; [reflexivity | split; [reflexivity | split; [exact Ha | split]]].
  - rewrite trace_log, Ht. cbn [trace boot app].
    rewrite forallb_app, Hq. reflexivity.
  - rewrite trace_log. apply last_last.
Qed.

(** ** The tables stay as they are *)

Lemma extends_refl P st : extends P st st.
Proof. split; [reflexivity |]. exists []. now rewrite app_nil_r. Qed.

Lemma extends_trans P st1 st2 st3 :
  extends P st1 st2 -> extends P st2 st3 -> extends P st1 st3.
Proof.
  intros [G1 (n1 & T1 & P1)] [G2 (n2 & T2 & P2)].
  split; [congruence |]. exists (n1 ++ n2).
  rewrite T2, T1, <- app_assoc, forallb_app, P1, P2. now split.
Qed.

Lemma extends_log P e st : P e = true -> extends P st (log e st).
Proof.
  intros He. split; [reflexivity |]. exists [e]. cbn. now rewrite He.
Qed.

Lemma extends_store P odrv upd st : extends P st (store odrv upd st).
Proof. split; [reflexivity |]. exists []. cbn. now rewrite app_nil_r. Qed.

Lemma extends_moved hs ms odrv move st :
  memb odrv hs = true -> memb move ms = true ->
  extends (allowed hs ms) st (moved odrv move st).
Proof.
  intros Hh Hm. split; [reflexivity |]. eexists.
  split; [apply trace_moved |]. cbn. now rewrite Hh, Hm.
Qed.

Lemma rotate_extends hs ms odrv quarter_turns st :
  memb odrv hs = true ->
  extends (allowed hs ms) st (snd (rotate odrv quarter_turns st)).
Proof.
  intros Hh. unfold rotate, bind, read, assign, sleep, emit. cbn [snd].
  repeat (eapply extends_trans;
          [| first [ apply extends_log; cbn; now rewrite ?Hh
                   | apply extends_store ] ]).
  apply extends_refl.
Qed.

Lemma memb_values_dict_get (odrives : dict string) face odrv :
  dict_get face odrives = Some odrv -> memb odrv (values odrives) = true.
Proof. intros H. apply memb_In. now apply dict_get_value with face. Qed.

Lemma execute_sequence_extends odrives ms sequence st :
  (forall m, In m sequence -> memb m ms = true) ->
  extends (allowed (values odrives) ms) st
          (snd (execute_sequence odrives sequence st)).
Proof.
  revert st. induction sequence as [| move rest IH]; intros st Hms.
  - apply extends_refl.
  - assert (Hrest : forall m, In m rest -> memb m ms = true)
      by (intros m Hm; apply Hms; now right).
    destruct (execute_sequence_cases odrives move rest st)
      as [[-> ->] | [(face & Hface & Hget & ->) | (face & odrv & Hface & Hget & ->)]].
    + apply extends_refl.
    + eapply extends_trans; [| now apply IH]. now apply extends_log.
    + eapply extends_trans; [| now apply IH].
      apply extends_moved.
      * now apply memb_values_dict_get with face.
      * apply Hms. now left.
Qed.

Lemma setup_block_allowed env hs ms face odrv history :
  memb odrv hs = true ->
  forallb (allowed hs ms) (setup_block env face odrv history) = true.
Proof.
  intros Hh. unfold setup_block, configuring, entering, verifying.
  cbn [app forallb allowed]. rewrite Hh.
  destruct (AxisState_eqb _ CLOSED_LOOP_CONTROL); cbn; now rewrite ?Hh.
Qed.

Lemma setup_loop_extends env hs ms items st :
  (forall h, In h (values items) -> memb h hs = true) ->
  extends (allowed hs ms) st (snd (setup_loop env items st)).
Proof.
  revert st. induction items as [| [face odrv] rest IH]; intros st Hhs.
  - apply extends_refl.
  - destruct (setup_one_block env face odrv st) as (st1 & Hrun & Ht & _ & Hg).
    cbn [setup_loop]. unfold bind. rewrite Hrun.
    eapply extends_trans; [| apply IH; intros h Hh; apply Hhs; now right].
    split; [exact Hg |]. eexists. split; [exact Ht |].
    apply setup_block_allowed. apply Hhs. now left.
Qed.

Lemma setup_motors_extends env ms odrives st :
  extends (allowed (values odrives) ms) st
          (snd (setup_motors env odrives st)).
Proof.
  unfold setup_motors, bind, print, emit.
  pose proof (setup_loop_extends env (values odrives) ms odrives
                (log (EPrint MSettingUp) st)) as H.
  destruct (setup_loop_spec env odrives (log (EPrint MSettingUp) st))
    as (st1 & new & Hrun & _).
  rewrite Hrun in *. cbn [snd] in *.
  eapply extends_trans;
    [apply (extends_log _ (EPrint MSettingUp)); reflexivity |].
  eapply extends_trans; [apply H; intros h; apply memb_In |].
  now apply extends_log.
Qed.

Lemma extends_weaken (P Q : Event -> bool) st st' :
  (forall e, P e = true -> Q e = true) ->
  extends P st st' -> extends Q st st'.
Proof.
  intros HPQ [G (new & T & HP)]. split; [exact G |]. exists new.
  split; [exact T |]. rewrite forallb_forall in *. auto.
Qed.

(** The command loop, whatever the console supplies: the effects address
    connected handles only and announce moves of the two lists only. *)
Lemma command_loop_extends odrives stdin st S U :
  g_SCRAMBLE_SEQUENCE st = S ->
  g_UNSCRAMBLE_SEQUENCE st = U ->
  extends (allowed (values odrives) (S ++ U)) st
          (snd (command_loop odrives stdin st)).
Proof.
  set (P := allowed (values odrives) (S ++ U)).
  revert st. induction stdin as [| line rest IH]; intros st HS HU.
  - cbn. now apply extends_log.
  - cbn [command_loop]. unfold bind at 1. unfold emit at 1.
    assert (Hseq : forall seq st0,
               (forall m, In m seq -> memb m (S ++ U) = true) ->
               extends P st0 (snd (execute_sequence odrives seq st0)))
      by (intros; now apply execute_sequence_extends).
    assert (Hgo : forall st0,
               extends P st st0 ->
               extends P st (snd (command_loop odrives rest st0))).
    { intros st0 H0. eapply extends_trans; [exact H0 |].
      destruct H0 as [G0 _]. injection G0 as _ HS0 HU0.
      apply IH; congruence. }
    assert (Hlogs : forall e1 e2 e3,
               P e1 = true -> P e2 = true -> P e3 = true ->
               extends P st (log e3 (log e2 (log e1 st)))).
    { intros e1 e2 e3 H1 H2 H3.
      eapply extends_trans; [| now apply extends_log].
      eapply extends_trans; [| now apply extends_log].
      now apply extends_log. }
    assert (Hdone : forall st1 e1 e2,
               P e1 = true -> P e2 = true ->
               extends P st st1 -> extends P st (log e2 (log e1 st1))).
    { intros st1 e1 e2 H1 H2 H0.
      eapply extends_trans; [exact H0 |].
      eapply extends_trans; [| now apply extends_log].
      now apply extends_log. }
    destruct (String.eqb (Py.upper line) "S");
      [| destruct (String.eqb (Py.upper line) "U");
         [| destruct (String.eqb (Py.upper line) "Q")]].
    + unfold bind, print, emit, get_state.
      cbn [g_SCRAMBLE_SEQUENCE log]. rewrite HS.
      assert (Hrun : extends P st
                (snd (execute_sequence odrives S
                        (log EClock (log (EPrint MScrambling) (log EInput st)))))).
      { eapply extends_trans;
          [| apply Hseq; intros m Hm; apply memb_In, in_or_app; now left].
        now apply Hlogs. }
      destruct (execute_sequence odrives S _) as [[[] | e] st1];
        cbn [snd] in *; [| exact Hrun].
      apply Hgo. now apply Hdone.
    + unfold bind, print, emit, get_state.
      cbn [g_UNSCRAMBLE_SEQUENCE log]. rewrite HU.
      assert (Hrun : extends P st
                (snd (execute_sequence odrives U
                        (log EClock (log (EPrint MUnscrambling) (log EInput st)))))).
      { eapply extends_trans;
          [| apply Hseq; intros m Hm; apply memb_In, in_or_app; now right].
        now apply Hlogs. }
      destruct (execute_sequence odrives U _) as [[[] | e] st1];
        cbn [snd] in *; [| exact Hrun].
      apply Hgo. now apply Hdone.
    + unfold print, emit. cbn [snd].
      eapply extends_trans; [| now apply extends_log]. now apply extends_log.
    + unfold bind, print, emit. apply Hgo.
      eapply extends_trans; [| now apply extends_log]. now apply extends_log.
Qed.

Lemma main_extends env stdin st :
  globals st = (SERIALS, SCRAMBLE_SEQUENCE, UNSCRAMBLE_SEQUENCE) ->
  extends within_tables st (snd (main env stdin st)).
Proof.
  intros HG. injection HG as HS HSc HUn.
  destruct (connect_odrives_spec env st HS)
    as (st1 & new & Hrun & Ht & _ & Hf & _ & Hg).
  assert (H1 : extends within_tables st st1).
  { apply extends_weaken with (allowed (values SERIALS) []).
    - intros e. apply allowed_more; [trivial | discriminate].
    - split; [exact Hg |]. now exists new. }
  unfold main, bind. rewrite Hrun.
  destruct (forallb (discoverable env) (values SERIALS)).
  - change (extends within_tables st
              (snd ((setup_motors env SERIALS ;;;
                     command_loop SERIALS stdin) st1))).
    unfold bind.
    pose proof (setup_motors_extends env MOVES SERIALS st1) as H2.
    destruct (setup_motors_spec env SERIALS st1) as (st2 & new2 & Hrun2 & _).
    rewrite Hrun2 in *. cbn [snd] in H2.
    eapply extends_trans; [exact H1 |].
    eapply extends_trans; [exact H2 |].
    destruct H1 as [G1 _], H2 as [G2 _].
    rewrite G1 in G2. injection G2 as _ HSc2 HUn2.
    apply command_loop_extends; congruence.
  - unfold print, emit. cbn [snd].
    eapply extends_trans; [exact H1 |]. now apply extends_log.
Qed.

(** C8. The face-to-serial table and the two move lists are static. Each
    operation ([connect_odrives], [setup_motors], [rotate],
    [execute_sequence], the command loop) leaves the three global bindings
    as it found them, from any state; so a run of [main] ends with them
    equal to the literals of the script. And every dispatch of such a run is
    a lookup in them: each controller looked for, read or written is a
    serial of [SERIALS], and each move announced is a token of one of the
    two move lists. *)
Theorem C8_tables_are_static env devices stdin :
  (forall st, globals (snd (connect_odrives env st)) = globals st) /\
  (forall odrives st,
      globals (snd (setup_motors env odrives st)) = globals st) /\
  (forall odrv quarter_turns st,
      globals (snd (rotate odrv quarter_turns st)) = globals st) /\
  (forall odrives sequence st,
      globals (snd (execute_sequence odrives sequence st)) = globals st) /\
  (forall odrives lines st,
      globals (snd (command_loop odrives lines st)) = globals st) /\
  globals (snd (main env stdin (boot devices))) =
    (SERIALS, SCRAMBLE_SEQUENCE, UNSCRAMBLE_SEQUENCE) /\
  forallb within_tables (trace (snd (main env stdin (boot devices)))) = true.
Proof.
  split; [| split; [| split; [| split; [| split; [| split]]]]].
  - intros st. destruct (connect_odrives_run env st) as (st' & new & Hrun & H).
    rewrite Hrun. cbn [snd]. tauto.
  - intros odrives st.
    destruct (setup_motors_spec env odrives st) as (st' & new & Hrun & H).
    rewrite Hrun. cbn [snd]. tauto.
  - intros odrv quarter_turns st.
    apply (rotate_extends [odrv] [] odrv quarter_turns st).
    cbn. now rewrite String.eqb_refl.
  - intros odrives sequence st.
    apply (execute_sequence_extends odrives sequence sequence st).
    intros m. apply memb_In.
  - intros odrives lines st.
    now apply (command_loop_extends odrives lines st
                 (g_SCRAMBLE_SEQUENCE st) (g_UNSCRAMBLE_SEQUENCE st)).
  - now apply (main_extends env stdin (boot devices)).
  - destruct (main_extends env stdin (boot devices) eq_refl)
      as [_ (new & Ht & Hp)].
    rewrite Ht. exact Hp.
Qed.

(** * Further properties of the script *)

(** ** Sequences: failure, composition, and what a token is read as *)

(** A sequence with an empty token raises [IndexError]. *)
Lemma execute_sequence_raises odrives sequence st :
  forallb nonempty sequence = false ->
  fst (execute_sequence odrives sequence st) = Raise IndexError.
Proof.
  revert st. induction sequence as [| move rest IH]; intros st; [discriminate |].
  cbn [forallb]. rewrite andb_false_iff.
  destruct (execute_sequence_cases odrives move rest st)
    as [[-> ->] | [(face & Hface & _ & ->) | (face & odrv & Hface & _ & ->)]].
  - reflexivity.
  - intros [H | H]; [| now apply IH].
    destruct move; [discriminate Hface | discriminate H].
  - intros [H | H]; [| now apply IH].
    destruct move; [discriminate Hface | discriminate H].
Qed.

Lemma execute_sequence_result odrives sequence st :
  fst (execute_sequence odrives sequence st) =
  if forallb nonempty sequence then Ok tt else Raise IndexError.
Proof.
  destruct (forallb nonempty sequence) eqn:E.
  - now apply execute_sequence_returns.
  - now apply execute_sequence_raises.
Qed.

Lemma execute_sequence_then odrives s1 s2 st :
  forallb nonempty s1 = true ->
  execute_sequence odrives (s1 ++ s2) st =
  execute_sequence odrives s2 (snd (execute_sequence odrives s1 st)).
Proof.
  intros H1. rewrite execute_sequence_app. unfold bind.
  pose proof (execute_sequence_returns odrives s1 st H1) as Hok.
  destruct (execute_sequence odrives s1 st) as [r st1].
  cbn [fst snd] in *. now subst r.
Qed.

(** X1. [execute_sequence] fails in one way only: it raises [IndexError]
    exactly when the list holds an empty token. A token that names an
    unknown face, or carries characters the notation does not have, never
    makes it fail. *)
Theorem sequence_fails_only_on_empty_token odrives sequence st :
  fst (execute_sequence odrives sequence st) =
  if forallb nonempty sequence then Ok tt else Raise IndexError.
Proof.
  destruct (forallb nonempty sequence) eqn:Htokens.
  - now apply execute_sequence_returns.
  - now apply execute_sequence_raises.
Qed.

(** X2. A sequence with an empty token keeps the moves made before the
    token and makes none of those after it: when the tokens before are not
    empty, the run ends with [IndexError] in the state those tokens leave. *)
Theorem empty_token_aborts_the_rest odrives before rest st :
  forallb nonempty before = true ->
  execute_sequence odrives (before ++ "" :: rest) st =
  (Raise IndexError, snd (execute_sequence odrives before st)).
Proof.
  intros H. rewrite execute_sequence_then by exact H. reflexivity.
Qed.

(** Two moves, an empty token, and a move that is not made. *)
Lemma empty_token_aborts_the_rest_witness :
  execute_sequence SERIALS (["R"; "U'"] ++ "" :: ["F"])
                   (boot (fun _ => Sample.axis 0)) =
  (Raise IndexError,
   snd (execute_sequence SERIALS ["R"; "U'"] (boot (fun _ => Sample.axis 0)))).
Proof.
  exact (empty_token_aborts_the_rest SERIALS ["R"; "U'"] ["F"]
           (boot (fun _ => Sample.axis 0)) eq_refl).
Defined.

(** X3. Sequences compose: running the concatenation of two lists is
    running the second from the state the first leaves, when the first has
    no empty token. So playing the scramble list and then the unscramble
    list is playing one list of forty moves. *)
Theorem sequences_compose odrives first second st :
  forallb nonempty first = true ->
  execute_sequence odrives (first ++ second) st =
  execute_sequence odrives second
                   (snd (execute_sequence odrives first st)).
Proof.
  intros Hfirst. rewrite execute_sequence_app. unfold bind.
  pose proof (execute_sequence_returns odrives first st Hfirst) as Hok.
  destruct (execute_sequence odrives first st) as [r st1].
  cbn [fst snd] in *. now subst r.
Qed.

(** The scramble list followed by the unscramble list. *)
Lemma sequences_compose_witness :
  execute_sequence SERIALS (SCRAMBLE_SEQUENCE ++ UNSCRAMBLE_SEQUENCE)
                   (boot (fun _ => Sample.axis 0)) =
  execute_sequence SERIALS UNSCRAMBLE_SEQUENCE
    (snd (execute_sequence SERIALS SCRAMBLE_SEQUENCE
            (boot (fun _ => Sample.axis 0)))).
Proof.
  exact (sequences_compose SERIALS SCRAMBLE_SEQUENCE UNSCRAMBLE_SEQUENCE
           (boot (fun _ => Sample.axis 0)) eq_refl).
Defined.

Lemma commands_by_key odrives seq1 seq2 :
  map move_key seq1 = map move_key seq2 ->
  commands odrives seq1 = commands odrives seq2.
Proof.
  revert seq2. induction seq1 as [| m1 r1 IH]; intros [| m2 r2]; try discriminate;
    [reflexivity |].
  cbn [map]. intros [= Hface Hquote Hrest].
  cbn [commands]. rewrite Hface. unfold direction. rewrite Hquote.
  now rewrite (IH r2 Hrest).
Qed.

Lemma nonempty_by_key seq1 seq2 :
  map move_key seq1 = map move_key seq2 ->
  forallb nonempty seq1 = forallb nonempty seq2.
Proof.
  revert seq2. induction seq1 as [| m1 r1 IH]; intros [| m2 r2]; try discriminate;
    [reflexivity |].
  cbn [map forallb]. intros [= Hface _ Hrest]. rewrite (IH r2 Hrest).
  destruct m1, m2; try discriminate; reflexivity.
Qed.

(** X4. A token is read by its first character and its trailing quote
    alone. Two lists whose tokens agree on these end alike and leave every
    axis alike; so a token of the notation for a half turn, such as "R2", is
    played as the quarter turn "R", and "U2'" as "U'". *)
Theorem tokens_are_read_by_face_and_quote odrives seq1 seq2 st :
  map move_key seq1 = map move_key seq2 ->
  fst (execute_sequence odrives seq1 st) =
    fst (execute_sequence odrives seq2 st) /\
  forall s, axis0 (snd (execute_sequence odrives seq1 st)) s =
            axis0 (snd (execute_sequence odrives seq2 st)) s.
Proof.
  intros Hkeys. split.
  - rewrite !execute_sequence_result. now rewrite (nonempty_by_key seq1 seq2).
  - intros s. rewrite !execute_sequence_axis0.
    now rewrite (commands_by_key odrives seq1 seq2).
Qed.

(** Half-turn and wide-turn tokens, played as plain quarter turns. *)
Lemma tokens_are_read_by_face_and_quote_witness :
  fst (execute_sequence SERIALS ["R2"; "U2'"; "Fw"]
                        (boot (fun _ => Sample.axis 0))) =
    fst (execute_sequence SERIALS ["R"; "U'"; "F"]
                          (boot (fun _ => Sample.axis 0))) /\
  forall s,
    axis0 (snd (execute_sequence SERIALS ["R2"; "U2'"; "Fw"]
                                 (boot (fun _ => Sample.axis 0)))) s =
    axis0 (snd (execute_sequence SERIALS ["R"; "U'"; "F"]
                                 (boot (fun _ => Sample.axis 0)))) s.
Proof.
  exact (tokens_are_read_by_face_and_quote SERIALS ["R2"; "U2'"; "Fw"]
           ["R"; "U'"; "F"] (boot (fun _ => Sample.axis 0)) eq_refl).
Defined.

Lemma same_configuration_with_input_pos p a :
  same_configuration (with_input_pos p a) a.
Proof. repeat split. Qed.

Lemma execute_sequence_same_configuration odrives sequence st s :
  same_configuration (axis0 (snd (execute_sequence odrives sequence st)) s)
                     (axis0 st s).
Proof.
  rewrite execute_sequence_axis0. apply same_configuration_with_input_pos.
Qed.

Lemma same_configuration_trans a b c :
  same_configuration a b -> same_configuration b c -> same_configuration a c.
Proof.
  unfold same_configuration. intros (A1 & A2 & A3 & A4 & A5 & A6)
    (B1 & B2 & B3 & B4 & B5 & B6).
  repeat split; congruence.
Qed.

(** ** The command loop *)

(** One turn of the loop, branch by branch. *)
Lemma command_loop_cons odrives line rest st :
  command_loop odrives (line :: rest) st =
  if String.eqb (Py.upper line) "S" then
    match execute_sequence odrives (g_SCRAMBLE_SEQUENCE st)
                           (announced MScrambling st) with
    | (Ok _, st1) =>
        command_loop odrives rest (completed MScrambleComplete st1)
    | (Raise e, st1) => (Raise e, st1)
    end
  else if String.eqb (Py.upper line) "U" then
    match execute_sequence odrives (g_UNSCRAMBLE_SEQUENCE st)
                           (announced MUnscrambling st) with
    | (Ok _, st1) =>
        command_loop odrives rest (completed MUnscrambleComplete st1)
    | (Raise e, st1) => (Raise e, st1)
    end
  else if String.eqb (Py.upper line) "Q" then
    (Ok tt, log (EPrint MExiting) (log EInput st))
  else
    command_loop odrives rest (log (EPrint MInvalidChoice) (log EInput st)).
Proof.
  cbn [command_loop]. unfold bind, emit, print, get_state, announced,
    completed.
  destruct (String.eqb (Py.upper line) "S");
    [| destruct (String.eqb (Py.upper line) "U");
       [| destruct (String.eqb (Py.upper line) "Q")]];
    cbn [g_SCRAMBLE_SEQUENCE g_UNSCRAMBLE_SEQUENCE log]; reflexivity.
Qed.

Lemma command_loop_nil odrives st :
  command_loop odrives [] st = (Raise EOFError, log EInput st).
Proof. reflexivity. Qed.

Lemma upper_ascii_idempotent c :
  Py.upper_ascii (Py.upper_ascii c) = Py.upper_ascii c.
Proof.
  destruct c as [[] [] [] [] [] [] [] []]; reflexivity.
Qed.

Lemma upper_idempotent s : Py.upper (Py.upper s) = Py.upper s.
Proof.
  induction s as [| c r IH]; [reflexivity |].
  cbn [Py.upper]. now rewrite upper_ascii_idempotent, IH.
Qed.

Lemma command_loop_upper odrives stdin st :
  command_loop odrives (map Py.upper stdin) st = command_loop odrives stdin st.
Proof.
  revert st. induction stdin as [| line rest IH]; intros st; [reflexivity |].
  cbn [map]. rewrite !command_loop_cons, upper_idempotent.
  destruct (String.eqb (Py.upper line) "S");
    [| destruct (String.eqb (Py.upper line) "U");
       [| destruct (String.eqb (Py.upper line) "Q")]].
  - destruct (execute_sequence _ _ _) as [[[] | e] st1]; [apply IH | reflexivity].
  - destruct (execute_sequence _ _ _) as [[[] | e] st1]; [apply IH | reflexivity].
  - reflexivity.
  - apply IH.
Qed.

Lemma command_loop_until_quit odrives stdin st :
  command_loop odrives (until_quit stdin) st = command_loop odrives stdin st.
Proof.
  revert st. induction stdin as [| line rest IH]; intros st; [reflexivity |].
  cbn [until_quit]. unfold quits.
  destruct (String.eqb (Py.upper line) "Q") eqn:HQ.
  - apply String.eqb_eq in HQ. rewrite !command_loop_cons, HQ. reflexivity.
  - rewrite !command_loop_cons, HQ.
    destruct (String.eqb (Py.upper line) "S");
      [| destruct (String.eqb (Py.upper line) "U")].
    + destruct (execute_sequence _ _ _) as [[[] | e] st1];
        [apply IH | reflexivity].
    + destruct (execute_sequence _ _ _) as [[[] | e] st1];
        [apply IH | reflexivity].
    + apply IH.
Qed.

(** After a successful connection [main] is the setup followed by the
    loop; otherwise it is the failure message. *)
Lemma main_after_connect env stdin st :
  main env stdin st =
  match connect_odrives env st with
  | (Ok (Some (binding :: more)), st1) =>
      command_loop (binding :: more) stdin
                   (snd (setup_motors env (binding :: more) st1))
  | (Ok _, st1) => (Ok tt, log (EPrint MFailedToConnect) st1)
  | (Raise e, st1) => (Raise e, st1)
  end.
Proof.
  unfold main, bind at 1.
  destruct (connect_odrives env st) as [[[[| binding more] |] | e] st1];
    try reflexivity.
  unfold bind.
  destruct (setup_motors_spec env (binding :: more) st1)
    as (st2 & new & Hrun & _).
  now rewrite Hrun.
Qed.

(** X5. The console is read without regard to case: [main] does the same
    on the lines typed as on the same lines in capitals, so "s", "u" and "q"
    are the commands S, U and Q. *)
Theorem console_is_case_insensitive env stdin st :
  main env (map Py.upper stdin) st = main env stdin st.
Proof.
  rewrite !main_after_connect.
  destruct (connect_odrives env st) as [[[[| binding more] |] | e] st1];
    try reflexivity.
  apply command_loop_upper.
Qed.

(** X6. Nothing typed after the quit command matters: [main] does the
    same on the console lines as on those up to and including the first
    that reads Q or q, and the later lines are not asked for. *)
Theorem lines_after_quit_are_not_read env stdin st :
  main env (until_quit stdin) st = main env stdin st.
Proof.
  rewrite !main_after_connect.
  destruct (connect_odrives env st) as [[[[| binding more] |] | e] st1];
    try reflexivity.
  apply command_loop_until_quit.
Qed.

Lemma axis0_announced start st : axis0 (announced start st) = axis0 st.
Proof. reflexivity. Qed.

Lemma axis0_completed finish st : axis0 (completed finish st) = axis0 st.
Proof. reflexivity. Qed.

Lemma command_loop_same_configuration odrives stdin st s :
  same_configuration (axis0 (snd (command_loop odrives stdin st)) s)
                     (axis0 st s).
Proof.
  revert st. induction stdin as [| line rest IH]; intros st.
  - rewrite command_loop_nil. repeat split.
  - rewrite command_loop_cons.
    assert (Hplay : forall start finish sequence,
               same_configuration
                 (axis0 (snd match execute_sequence odrives sequence
                                     (announced start st) with
                             | (Ok _, st1) =>
                                 command_loop odrives rest (completed finish st1)
                             | (Raise e, st1) => (Raise e, st1)
                             end) s)
                 (axis0 st s)).
    { intros start finish sequence.
      pose proof (execute_sequence_same_configuration
                    odrives sequence (announced start st) s) as Hseq.
      rewrite axis0_announced in Hseq.
      destruct (execute_sequence odrives sequence (announced start st))
        as [[[] | e] st1]; cbn [snd] in *; [| exact Hseq].
      eapply same_configuration_trans; [apply IH |].
      now rewrite axis0_completed. }
    destruct (String.eqb (Py.upper line) "S"); [apply Hplay |].
    destruct (String.eqb (Py.upper line) "U"); [apply Hplay |].
    destruct (String.eqb (Py.upper line) "Q"); [repeat split |].
    eapply same_configuration_trans; [apply IH |]. repeat split.
Qed.

(** X7. Nothing the operator types changes the configuration of an axis:
    whatever the console lines and the mapping, every axis comes out of the
    command loop with the control mode, input mode, trajectory limits and
    requested state it went in with; only [input_pos] can differ. *)
Theorem console_never_reconfigures odrives stdin st s :
  control_mode (axis0 (snd (command_loop odrives stdin st)) s)
    = control_mode (axis0 st s) /\
  input_mode (axis0 (snd (command_loop odrives stdin st)) s)
    = input_mode (axis0 st s) /\
  vel_limit (axis0 (snd (command_loop odrives stdin st)) s)
    = vel_limit (axis0 st s) /\
  accel_limit (axis0 (snd (command_loop odrives stdin st)) s)
    = accel_limit (axis0 st s) /\
  decel_limit (axis0 (snd (command_loop odrives stdin st)) s)
    = decel_limit (axis0 st s) /\
  requested_state (axis0 (snd (command_loop odrives stdin st)) s)
    = requested_state (axis0 st s).
Proof.
  destruct (command_loop_same_configuration odrives stdin st s)
    as (Hcontrol & Hinput & Hvel & Haccel & Hdecel & Hrequested).
  repeat split; assumption.
Qed.

Lemma command_loop_idle odrives stdin st :
  forallb (fun line => negb (plays line)) stdin = true ->
  axis0 (snd (command_loop odrives stdin st)) = axis0 st.
Proof.
  revert st. induction stdin as [| line rest IH]; intros st; [reflexivity |].
  cbn [forallb]. rewrite andb_true_iff, negb_true_iff. unfold plays.
  rewrite orb_false_iff. intros [[HS HU] Hrest].
  rewrite command_loop_cons, HS, HU.
  destruct (String.eqb (Py.upper line) "Q"); [reflexivity |].
  now rewrite IH.
Qed.

(** X8. Only the S and U commands move anything: when the console lines
    up to the quit command are ASCII text and none of them reads S or U (in
    either case), the command loop leaves every axis exactly as it was,
    [input_pos] included, however many invalid choices are typed. *)
Theorem only_S_and_U_move_the_axes odrives stdin st :
  forallb ascii_line (until_quit stdin) = true ->
  forallb (fun line => negb (plays line)) (until_quit stdin) = true ->
  axis0 (snd (command_loop odrives stdin st)) = axis0 st.
Proof.
  intros _ Hlines. rewrite <- command_loop_until_quit.
  now apply command_loop_idle.
Qed.

(** Invalid choices, then quit; the S after the quit is not read. *)
Lemma only_S_and_U_move_the_axes_witness :
  axis0 (snd (command_loop SERIALS ["x"; ""; "scramble"; "R"; "q"; "S"]
                           (boot (fun _ => Sample.axis 1.5)))) =
  axis0 (boot (fun _ => Sample.axis 1.5)).
Proof.
  exact (only_S_and_U_move_the_axes SERIALS
           ["x"; ""; "scramble"; "R"; "q"; "S"]
           (boot (fun _ => Sample.axis 1.5)) eq_refl eq_refl).
Defined.

Lemma extends_globals P st st' : extends P st st' -> globals st' = globals st.
Proof. now intros [G _]. Qed.

Lemma plays_not_quits line :
  String.eqb (Py.upper line) "S" = true \/
  String.eqb (Py.upper line) "U" = true ->
  quits line = false.
Proof.
  unfold quits. rewrite !String.eqb_eq. now intros [-> | ->].
Qed.

Lemma command_loop_outcome odrives stdin st :
  forallb nonempty (g_SCRAMBLE_SEQUENCE st) = true ->
  forallb nonempty (g_UNSCRAMBLE_SEQUENCE st) = true ->
  fst (command_loop odrives stdin st) =
  if existsb quits stdin then Ok tt else Raise EOFError.
Proof.
  revert st. induction stdin as [| line rest IH]; intros st HS HU;
    [reflexivity |].
  rewrite command_loop_cons. cbn [existsb].
  assert (Hplay : forall start finish sequence,
             forallb nonempty sequence = true ->
             fst match execute_sequence odrives sequence (announced start st)
                 with
                 | (Ok _, st1) =>
                     command_loop odrives rest (completed finish st1)
                 | (Raise e, st1) => (Raise e, st1)
                 end =
             if existsb quits rest then Ok tt else Raise EOFError).
  { intros start finish sequence Hseq.
    pose proof (execute_sequence_returns odrives sequence
                  (announced start st) Hseq) as Hok.
    pose proof (extends_globals _ _ _
                  (execute_sequence_extends odrives sequence sequence
                     (announced start st)
                     (fun m Hm => proj2 (memb_In m sequence) Hm))) as Hg.
    destruct (execute_sequence odrives sequence (announced start st))
      as [r st1]; cbn [fst snd] in *. subst r.
    injection Hg as _ HS1 HU1.
    apply IH; cbn [completed announced log g_SCRAMBLE_SEQUENCE
                     g_UNSCRAMBLE_SEQUENCE] in *; congruence. }
  destruct (String.eqb (Py.upper line) "S") eqn:ES.
  { rewrite (plays_not_quits line (or_introl ES)). now apply Hplay. }
  destruct (String.eqb (Py.upper line) "U") eqn:EU.
  { rewrite (plays_not_quits line (or_intror EU)). now apply Hplay. }
  unfold quits at 1.
  destruct (String.eqb (Py.upper line) "Q"); [reflexivity |].
  now apply IH.
Qed.

(** X9. How [main] ends, started as the script starts it. When a
    controller does not answer it returns after the failure message. When
    all answer, it returns normally exactly when some console line reads Q
    or q, and otherwise raises [EOFError] when the console runs out: no
    other exception arises, in particular no [IndexError] from the two move
    lists, whatever is typed. *)
Theorem main_ends_on_quit_or_end_of_input env devices stdin :
  fst (main env stdin (boot devices)) =
  if forallb (discoverable env) (values SERIALS)
  then if existsb quits stdin then Ok tt else Raise EOFError
  else Ok tt.
Proof.
  rewrite main_after_connect.
  destruct (connect_odrives_spec env (boot devices) eq_refl)
    as (st1 & new & Hrun & _ & _ & _ & _ & Hg).
  rewrite Hrun.
  destruct (forallb (discoverable env) (values SERIALS)); [| reflexivity].
  change (fst (command_loop SERIALS stdin
                 (snd (setup_motors env SERIALS st1))) =
          if existsb quits stdin then Ok tt else Raise EOFError).
  destruct (setup_motors_spec env SERIALS st1)
    as (st2 & new2 & Hrun2 & _ & _ & _ & _ & _ & Hg2).
  rewrite Hrun2. cbn [snd].
  rewrite Hg in Hg2. injection Hg2 as _ HS HU.
  apply command_loop_outcome.
  - now rewrite HS.
  - now rewrite HU.
Qed.

Lemma execute_sequence_loop_events odrives sequence st :
  extends loop_event st (snd (execute_sequence odrives sequence st)).
Proof.
  revert st. induction sequence as [| move rest IH]; intros st.
  - apply extends_refl.
  - destruct (execute_sequence_cases odrives move rest st)
      as [[-> ->] | [(face & _ & _ & ->) | (face & odrv & _ & _ & ->)]].
    + apply extends_refl.
    + eapply extends_trans; [| apply IH]. now apply extends_log.
    + eapply extends_trans; [| apply IH].
      split; [reflexivity |]. eexists. split; [apply trace_moved |].
      reflexivity.
Qed.

Lemma command_loop_loop_events odrives stdin st :
  extends loop_event st (snd (command_loop odrives stdin st)).
Proof.
  revert st. induction stdin as [| line rest IH]; intros st.
  - rewrite command_loop_nil. now apply extends_log.
  - rewrite command_loop_cons.
    assert (Hin : forall start, extends loop_event st (announced start st)).
    { intros start. unfold announced.
      eapply extends_trans; [| now apply extends_log].
      eapply extends_trans; [| now apply extends_log].
      now apply extends_log. }
    assert (Hlog2 : forall e, loop_event e = true ->
                              extends loop_event st (log e (log EInput st))).
    { intros e He. eapply extends_trans; [| now apply extends_log].
      now apply extends_log. }
    assert (Hplay : forall start finish sequence,
               extends loop_event st
                 (snd match execute_sequence odrives sequence
                                             (announced start st) with
                      | (Ok _, st1) =>
                          command_loop odrives rest (completed finish st1)
                      | (Raise e, st1) => (Raise e, st1)
                      end)).
    { intros start finish sequence.
      pose proof (execute_sequence_loop_events odrives sequence
                    (announced start st)) as Hseq.
      destruct (execute_sequence odrives sequence (announced start st))
        as [[[] | e] st1]; cbn [snd] in *.
      - eapply extends_trans; [apply Hin |].
        eapply extends_trans; [exact Hseq |].
        eapply extends_trans; [| apply IH]. unfold completed.
        eapply extends_trans; [| now apply extends_log].
        now apply extends_log.
      - eapply extends_trans; [apply Hin | exact Hseq]. }
    destruct (String.eqb (Py.upper line) "S"); [apply Hplay |].
    destruct (String.eqb (Py.upper line) "U"); [apply Hplay |].
    destruct (String.eqb (Py.upper line) "Q"); [now apply Hlog2 |].
    eapply extends_trans; [| apply IH]. now apply Hlog2.
Qed.

(** X10. What the command loop never does. Whatever the console lines,
    the mapping and the state, its effects are console reads, clock reads,
    printing, the settling sleep, and reads and writes of [input_pos]: it
    never reads what a controller reports ([pos_estimate],
    [current_state]), never writes a mode, a limit or a requested state, and
    never looks for a controller. *)
Theorem command_loop_only_commands_positions odrives stdin st :
  exists new,
    trace (snd (command_loop odrives stdin st)) = trace st ++ new /\
    forallb loop_event new = true.
Proof.
  destruct (command_loop_loop_events odrives stdin st) as [_ Hnew].
  exact Hnew.
Qed.

(** ** Connecting, over any table *)

Lemma found_app t1 t2 : found (t1 ++ t2) = found t1 ++ found t2.
Proof.
  induction t1 as [| e r IH]; [reflexivity |].
  destruct e; cbn [app found]; now rewrite IH.
Qed.

Lemma connect_loop_found env items odrives st :
  exists new,
    trace (snd (connect_loop env items odrives st)) = trace st ++ new /\
    found new = attempted env items.
Proof.
  revert odrives st.
  induction items as [| [face serial] rest IH]; intros odrives st.
  - exists []. cbn. now rewrite app_nil_r.
  - cbn [connect_loop attempted]. unfold bind at 1.
    rewrite connect_one_spec.
    destruct (discoverable env serial).
    + destruct (IH (dict_set face serial odrives)
                   (log (EPrint (MConnected face serial))
                        (log (EFind serial) st))) as (new & Ht & Hf).
      exists (EFind serial :: EPrint (MConnected face serial) :: new).
      cbv beta iota. rewrite Ht, !trace_log, <- !app_assoc.
      cbn [app found]. now rewrite Hf.
    + exists [EFind serial; EPrint (MFailed face serial)].
      unfold ret. cbn [snd]. rewrite !trace_log, <- !app_assoc. now split.
Qed.

(** X11. Connecting stops at the first controller that does not answer:
    whatever the table, the serials [connect_odrives] looks for are, in
    table order, those up to and including the first that fails, each once;
    the controllers listed after it are never looked for. *)
Theorem connect_stops_at_first_failure env st :
  exists new,
    trace (snd (connect_odrives env st)) = trace st ++ new /\
    found new = attempted env (g_SERIALS st).
Proof.
  unfold connect_odrives, bind, print, emit, get_state.
  cbn [g_SERIALS log].
  destruct (connect_loop_found env (g_SERIALS st) []
                               (log (EPrint MConnecting) st))
    as (new & Ht & Hf).
  destruct (connect_loop env (g_SERIALS st) [] (log (EPrint MConnecting) st))
    as [[[odrives |] | e] st1]; unfold ret; cbn [snd] in *.
  - exists (EPrint MConnecting :: new ++ [EPrint MAllConnected]).
    rewrite trace_log, Ht, trace_log, <- !app_assoc. split; [reflexivity |].
    cbn [found]. rewrite found_app, Hf. cbn [found]. apply app_nil_r.
  - exists (EPrint MConnecting :: new).
    rewrite Ht, trace_log, <- !app_assoc. now split.
  - exists (EPrint MConnecting :: new).
    rewrite Ht, trace_log, <- !app_assoc. now split.
Qed.

Lemma dict_set_fresh {V} (d : dict V) k v :
  memb k (keys d) = false -> dict_set k v d = d ++ [(k, v)].
Proof.
  induction d as [| [k' v'] r IH]; [reflexivity |].
  cbn [keys map fst memb dict_set app]. rewrite orb_false_iff.
  intros [Hk Hr]. rewrite Hk. f_equal. now apply IH.
Qed.

Lemma memb_app x l1 l2 : memb x (l1 ++ l2) = memb x l1 || memb x l2.
Proof.
  induction l1 as [| y r IH]; [reflexivity |].
  cbn [app memb]. now rewrite IH, orb_assoc.
Qed.

Lemma distinct_middle l1 x l2 :
  distinct (l1 ++ x :: l2) = true -> memb x l1 = false.
Proof.
  induction l1 as [| y r IH]; [reflexivity |].
  cbn [app distinct memb]. rewrite andb_true_iff, negb_true_iff, memb_app.
  cbn [memb]. rewrite !orb_false_iff. intros [(_ & Hxy & _) Hr].
  rewrite String.eqb_sym, Hxy. split; [reflexivity | now apply IH].
Qed.

Lemma fold_dict_set_fresh (items odrives : dict string) :
  distinct (keys odrives ++ keys items) = true ->
  fold_left (fun d it => dict_set (fst it) (snd it) d) items odrives =
  odrives ++ items.
Proof.
  revert odrives. induction items as [| [face serial] rest IH]; intros odrives.
  - intros _. cbn [fold_left]. now rewrite app_nil_r.
  - cbn [fold_left fst snd keys map]. intros Hd.
    assert (Hd' : distinct ((keys odrives ++ [face]) ++ keys rest) = true)
      by (now rewrite <- app_assoc).
    assert (Hfresh : memb face (keys odrives) = false)
      by (now apply distinct_middle with (keys rest)).
    rewrite dict_set_fresh by exact Hfresh.
    rewrite IH.
    + now rewrite <- app_assoc.
    + unfold keys in *. now rewrite map_app.
Qed.

(** X12. Connecting returns the table it was given: for any table of
    distinct faces whose controllers all answer, [connect_odrives] returns
    the mapping with the same faces in the same order, each bound to the
    handle of its serial. Like the six faces of the script, so would any
    other set of faces be connected. *)
Theorem connect_returns_the_table env st :
  distinct (keys (g_SERIALS st)) = true ->
  forallb (discoverable env) (values (g_SERIALS st)) = true ->
  fst (connect_odrives env st) = Ok (Some (g_SERIALS st)).
Proof.
  intros Hfaces Hall.
  destruct (connect_odrives_run env st) as (st' & new & Hrun & _).
  rewrite Hrun, Hall. cbn [fst].
  now rewrite (fold_dict_set_fresh (g_SERIALS st) []).
Qed.

(** A table of two faces. *)
Lemma connect_returns_the_table_witness :
  fst (connect_odrives (Sample.healthy 0)
         (mkState [("U", "395134633331"); ("D", "395634623331")]
                  ["U"; "D'"] ["D"; "U'"] (fun _ => Sample.axis 0) [])) =
  Ok (Some [("U", "395134633331"); ("D", "395634623331")]).
Proof.
  exact (connect_returns_the_table (Sample.healthy 0)
           (mkState [("U", "395134633331"); ("D", "395634623331")]
                    ["U"; "D'"] ["D"; "U'"] (fun _ => Sample.axis 0) [])
           eq_refl eq_refl).
Defined.

(** ** Setup, axis by axis *)

Lemma synced_axis_grows env base st st' s more :
  trace st' = trace st ++ more ->
  axis0 st' s = axis0 st s ->
  synced_axis env base st s -> synced_axis env base st' s.
Proof.
  intros Ht Ha (earlier & later & Hlog & Haxis).
  exists earlier, (later ++ more). split.
  - rewrite Ht, Hlog, <- !app_assoc. reflexivity.
  - now rewrite Ha.
Qed.

Lemma setup_loop_synced env base items st earlier :
  trace st = base ++ earlier ->
  (forall face odrv,
      In (face, odrv) items ->
      synced_axis env base (snd (setup_loop env items st)) odrv) /\
  (forall s,
      synced_axis env base st s ->
      synced_axis env base (snd (setup_loop env items st)) s).
Proof.
  revert st earlier.
  induction items as [| [face odrv] rest IH]; intros st earlier Hbase.
  - split.
    + intros face odrv Hin. destruct Hin.
    + intros s Hs. exact Hs.
  - destruct (setup_one_block env face odrv st) as (st1 & Hrun & Ht & Ha & _).
    cbn [setup_loop]. unfold bind. rewrite Hrun.
    assert (Hbase1 : trace st1 =
                     base ++ (earlier ++ setup_block env face odrv (trace st)))
      by (now rewrite Ht, Hbase, <- app_assoc).
    destruct (IH st1 _ Hbase1) as [Hin Hkeep].
    assert (Hnew : synced_axis env base st1 odrv).
    { exists earlier, (verifying face odrv (verified_state env odrv (trace st))
                         (pos_estimate env odrv
                            ((trace st ++ configuring odrv ++
                              entering odrv
                                (synced_position env odrv (trace st))) ++
                             [ERead odrv A_current_state]))).
      rewrite <- Hbase. split.
      - rewrite Ht. unfold setup_block, verified_state, synced_position.
        rewrite <- !app_assoc. reflexivity.
      - now rewrite Ha, String.eqb_refl. }
    split.
    + intros f o [[= -> ->] | Hrest]; [now apply Hkeep | exact (Hin f o Hrest)].
    + intros s Hs. apply Hkeep.
      destruct (String.eqb s odrv) eqn:E.
      * apply String.eqb_eq in E. now subst s.
      * apply (synced_axis_grows env base st st1 s _ Ht); [| exact Hs].
        now rewrite Ha, E.
Qed.

(** X13. Setup overwrites whatever an axis held, and syncs it: after
    [setup_motors], the axis of every connected handle is in position
    control with trajectory input, limits 80, 150 and 150, closed loop
    requested, and its [input_pos] is the position estimate the controller
    gave at the read that this run of setup logged just before writing
    [input_pos] and requesting closed loop, whatever the axis held before;
    the axis of a controller outside the mapping is exactly as it was. *)
Theorem setup_overwrites_connected_axes_only env odrives st :
  (forall face odrv,
      In (face, odrv) odrives ->
      exists earlier later,
        trace (snd (setup_motors env odrives st)) =
          (trace st ++ earlier) ++ configuring odrv ++
          entering odrv (synced_position env odrv (trace st ++ earlier)) ++
          later /\
        axis0 (snd (setup_motors env odrives st)) odrv =
          set_up (synced_position env odrv (trace st ++ earlier))) /\
  (forall s,
      ~ In s (values odrives) ->
      axis0 (snd (setup_motors env odrives st)) s = axis0 st s).
Proof.
  split.
  - intros face odrv Hin.
    destruct (setup_loop_synced env (trace st) odrives
                (log (EPrint MSettingUp) st) [EPrint MSettingUp] eq_refl)
      as [Hset _].
    pose proof (Hset face odrv Hin) as Hsynced.
    unfold setup_motors, bind, print, emit.
    destruct (setup_loop_spec env odrives (log (EPrint MSettingUp) st))
      as (st1 & new & Hrun & _).
    rewrite Hrun in *. cbn [snd] in *.
    exact (synced_axis_grows env (trace st) st1
             (log (EPrint MAllReady) st1) odrv [EPrint MAllReady]
             eq_refl eq_refl Hsynced).
  - intros s Hs.
    destruct (setup_motors_spec env odrives st)
      as (st' & new & Hrun & _ & _ & _ & _ & Hframe & _).
    rewrite Hrun. now apply Hframe.
Qed.

Lemma written_app t1 t2 : written (t1 ++ t2) = written t1 ++ written t2.
Proof.
  induction t1 as [| e r IH]; [reflexivity |].
  destruct e; cbn [app written]; now rewrite IH.
Qed.

Lemma written_setup_block env face odrv history :
  written (setup_block env face odrv history) = repeat odrv 7.
Proof.
  unfold setup_block, configuring, entering, verifying.
  cbn [app written].
  destruct (AxisState_eqb _ CLOSED_LOOP_CONTROL); reflexivity.
Qed.

Lemma setup_loop_written env items st :
  exists new,
    trace (snd (setup_loop env items st)) = trace st ++ new /\
    written new = flat_map (fun it => repeat (snd it) 7) items.
Proof.
  revert st. induction items as [| [face odrv] rest IH]; intros st.
  - exists []. cbn. now rewrite app_nil_r.
  - destruct (setup_one_block env face odrv st) as (st1 & Hrun & Ht & _).
    cbn [setup_loop]. unfold bind. rewrite Hrun.
    destruct (IH st1) as (new & Ht' & Hw).
    exists (setup_block env face odrv (trace st) ++ new).
    rewrite Ht', Ht, <- app_assoc. split; [reflexivity |].
    rewrite written_app, written_setup_block, Hw. reflexivity.
Qed.

(** X14. Setup takes the controllers one at a time, in the order of the
    mapping: the writes it makes are seven to the first handle, then seven
    to the second, and so on; no write to one controller falls between the
    writes to another. *)
Theorem setup_is_one_controller_at_a_time env odrives st :
  exists new,
    trace (snd (setup_motors env odrives st)) = trace st ++ new /\
    written new = flat_map (fun it => repeat (snd it) 7) odrives.
Proof.
  destruct (setup_loop_written env odrives (log (EPrint MSettingUp) st))
    as (new & Ht & Hw).
  exists (EPrint MSettingUp :: new ++ [EPrint MAllReady]).
  unfold setup_motors, bind, print, emit.
  destruct (setup_loop_spec env odrives (log (EPrint MSettingUp) st))
    as (st1 & new1 & Hrun & _).
  rewrite Hrun in *. cbn [snd] in *.
  rewrite trace_log, Ht, trace_log, <- !app_assoc. split; [reflexivity |].
  cbn [written]. rewrite written_app, Hw. cbn [written]. apply app_nil_r.
Qed.

(** ** The phases of a run *)

Lemma preparing_connect hs e :
  touches_no_axis e = true -> allowed hs [] e = true ->
  preparing_event e = true.
Proof.
  destruct e as [s | s a | s a v | d | m | |]; try destruct m; cbn;
    intros Hquiet Hallowed; trivial; discriminate.
Qed.

Lemma setup_block_preparing env face odrv history :
  forallb preparing_event (setup_block env face odrv history) = true.
Proof.
  unfold setup_block, configuring, entering, verifying. cbn [app forallb].
  destruct (AxisState_eqb _ CLOSED_LOOP_CONTROL); reflexivity.
Qed.

Lemma setup_loop_preparing env items st :
  extends preparing_event st (snd (setup_loop env items st)).
Proof.
  revert st. induction items as [| [face odrv] rest IH]; intros st.
  - apply extends_refl.
  - destruct (setup_one_block env face odrv st) as (st1 & Hrun & Ht & _ & Hg).
    cbn [setup_loop]. unfold bind. rewrite Hrun.
    eapply extends_trans; [| apply IH].
    split; [exact Hg |]. eexists. split; [exact Ht |].
    apply setup_block_preparing.
Qed.

Lemma last_app_nonempty {A} (l1 l2 : list A) d x :
  last l2 d = x -> x <> d -> last (l1 ++ l2) d = x.
Proof.
  intros Hlast Hx. destruct l2 as [| y r]; [cbn in Hlast; congruence |].
  induction l1 as [| z l1 IH]; [exact Hlast |].
  cbn [app]. cbn [app] in IH. rewrite <- IH.
  destruct (l1 ++ y :: r) eqn:E; [| reflexivity].
  destruct l1; discriminate E.
Qed.

(** X15. A run of [main] has its phases in order. When every controller
    answers, the log splits in two: a first part that ends with "All motors
    ready!" and holds no console read, no clock read and no move, and a
    second part that holds nothing but effects of the command loop (console,
    clock, printing, the settling sleep, reads and writes of [input_pos]).
    So no line is asked for and no face is moved before all six axes are set
    up, and nothing is configured or looked for afterwards. *)
Theorem main_sets_up_before_it_moves env devices stdin :
  forallb (discoverable env) (values SERIALS) = true ->
  exists preparing commanding,
    trace (snd (main env stdin (boot devices))) = preparing ++ commanding /\
    last preparing EInput = EPrint MAllReady /\
    forallb preparing_event preparing = true /\
    forallb loop_event commanding = true.
Proof.
  intros Hall. rewrite main_after_connect.
  destruct (connect_odrives_spec env (boot devices) eq_refl)
    as (st1 & new1 & Hrun1 & Ht1 & Hq1 & Hf1 & _).
  rewrite Hrun1, Hall.
  change (exists preparing commanding,
             trace (snd (command_loop SERIALS stdin
                           (snd (setup_motors env SERIALS st1)))) =
               preparing ++ commanding /\
             last preparing EInput = EPrint MAllReady /\
             forallb preparing_event preparing = true /\
             forallb loop_event commanding = true).
  destruct (setup_motors_spec env SERIALS st1)
    as (st2 & new2 & Hrun2 & Ht2 & _ & Hlast & _).
  pose proof (setup_loop_preparing env SERIALS (log (EPrint MSettingUp) st1))
    as [_ (new2' & Ht2' & Hp2)].
  assert (Hnew2 : new2 = EPrint MSettingUp :: new2' ++ [EPrint MAllReady]).
  { apply (app_inv_head (trace st1)). rewrite <- Ht2.
    pose proof Hrun2 as Hrun. unfold setup_motors, bind, print, emit in Hrun.
    destruct (setup_loop env SERIALS (log (EPrint MSettingUp) st1))
      as [[[] | e] st'] eqn:El; [| discriminate Hrun].
    injection Hrun as <-. cbn [snd] in Ht2'.
    rewrite trace_log, Ht2', trace_log, <- !app_assoc. reflexivity. }
  rewrite Hrun2. cbn [snd].
  destruct (command_loop_loop_events SERIALS stdin st2)
    as [_ (post & Ht3 & Hp3)].
  exists (new1 ++ new2), post.
  split; [| split; [| split]].
  - rewrite Ht3, Ht2, Ht1. reflexivity.
  - apply last_app_nonempty; [exact Hlast | discriminate].
  - rewrite forallb_app. apply andb_true_iff. split.
    + rewrite forallb_forall in *. intros e He.
      apply preparing_connect with (values SERIALS); auto.
    + rewrite Hnew2. cbn [forallb preparing_event].
      rewrite forallb_app, Hp2. reflexivity.
  - exact Hp3.
Qed.

(** A run with one scramble. *)
Lemma main_sets_up_before_it_moves_witness :
  exists preparing commanding,
    trace (snd (main (Sample.healthy 0) ["s"; "q"]
                     (boot (fun _ => Sample.axis 0)))) =
      preparing ++ commanding /\
    last preparing EInput = EPrint MAllReady /\
    forallb preparing_event preparing = true /\
    forallb loop_event commanding = true.
Proof.
  exact (main_sets_up_before_it_moves (Sample.healthy 0)
           (fun _ => Sample.axis 0) ["s"; "q"] eq_refl).
Defined.
